(** * ScaleCrafter [text2image.py]: the adaptive-receptive-field denoising loop

    A shallow embedding of [pipeline_processor.forward] (the denoising loop,
    source lines 178-270) and of the sampling part of [main] (lines 391-410).

    Conventions of the embedding.
    - The dilation rates are Python numbers: an [int] is a [Z] and a
      [float] is a binary64 value ([float64]: a rational, an infinity or NaN),
      every operation rounding to nearest, ties to even.  The two zeros are
      one value, nothing in the script telling them apart.  The guidance scale
      and rescale factors, which the script only compares with constants,
      are rationals.  Integers ([i], the [*_tau] parameters) are [Z].
    - Everything the script imports (torch tensors and their arithmetic, the
      U-Net call, the scheduler, the random generator) is an operation of the
      class [Externals].
    - A network is the list that [named_modules()] enumerates, each module
      with the current value of its [forward] attribute.  The three network
      objects of [forward] ([self.unet], [unet_inflate],
      [unet_inflate_vanilla]) are fields of the machine state, and the local
      variable [unet] is a reference ([net_id]) to one of them, so that a
      replaced [forward] is seen by whoever looks at the object afterwards.
    - Exceptions are values of [exn]; a computation returns [result A] and the
      state in which it stopped. *)

From Stdlib Require Import ZArith QArith Qround Qpower Lia Lqa Ascii.
From stdpp Require Import base option list gmap strings.

Local Open Scope Z_scope.

(** ** Exceptions and results *)

Inductive exn : Type :=
| ZeroDivisionError
| AttributeError
| TypeError
| UnboundLocalError
| ValueError
| OverflowError
| ExternalError (msg : string).

Definition result (A : Type) : Type := exn + A.

Definition result_bind {A B} (r : result A) (k : A -> result B) : result B :=
  match r with
  | inl e => inl e
  | inr a => k a
  end.

(** ** binary64 numbers *)

Inductive float64 : Type :=
| Fnan
| Finf (negative : bool)
| Ffinite (q : Q).

(** The integer [e] with [2 ^ e <= x < 2 ^ (e + 1)], for [x > 0]. *)
Definition ilog2 (x : Q) : Z :=
  let e0 := Z.log2 (Qnum x) - Z.log2 (Zpos (Qden x)) in
  if Qle_bool (2 ^ e0) x then e0 else e0 - 1.

(** The nearest integer, the even one of two that are equally near. *)
Definition round_half_even (x : Q) : Z :=
  let f := Qfloor x in
  match (x - inject_Z f ?= 1 # 2)%Q with
  | Lt => f
  | Gt => f + 1
  | Eq => if Z.even f then f else f + 1
  end.

(** The exponent of the binade of [x > 0], not below that of the subnormal
    numbers; the spacing of the binary64 numbers there (53 bits of
    precision); and the multiple of that spacing nearest to [x]. *)
Definition exponent (x : Q) : Z := Z.max (ilog2 x) (-1022).

Definition ulp (x : Q) : Q := 2 ^ (exponent x - 52).

Definition round_value (x : Q) : Q := inject_Z (round_half_even (x / ulp x)) * ulp x.

Definition round_positive (x : Q) : float64 :=
  if Qle_bool (2 ^ 1024) (round_value x) then Finf false else Ffinite (Qred (round_value x)).

Definition f64_opp (x : float64) : float64 :=
  match x with
  | Fnan => Fnan
  | Finf s => Finf (negb s)
  | Ffinite q => Ffinite (Qred (- q))
  end.

(** The binary64 number that a real result is rounded to. *)
Definition round64 (x : Q) : float64 :=
  match (x ?= 0)%Q with
  | Eq => Ffinite 0
  | Gt => round_positive x
  | Lt => f64_opp (round_positive (- x))
  end.

(** A value that is a binary64 number: rounding leaves it as it is. *)
Definition is_float64 (x : float64) : Prop :=
  match x with
  | Ffinite q => round64 q = Ffinite q
  | _ => True
  end.

(** The order of the binary64 numbers; NaN is not comparable. *)
Definition f64_le (x y : float64) : Prop :=
  match x, y with
  | Ffinite p, Ffinite q => (p <= q)%Q
  | Finf true, (Finf _ | Ffinite _) => True
  | (Finf false | Ffinite _), Finf false => True
  | _, _ => False
  end.

(** [x * y] on floats. *)
Definition f64_mul (x y : float64) : float64 :=
  match x, y with
  | Fnan, _ | _, Fnan => Fnan
  | Finf s, Finf s' => Finf (xorb s s')
  | Finf s, Ffinite q | Ffinite q, Finf s =>
    if Qeq_bool q 0 then Fnan else Finf (xorb s (negb (Qle_bool 0 q)))
  | Ffinite p, Ffinite q => round64 (p * q)
  end.

(** [x / 2] on a float. *)
Definition f64_half (x : float64) : float64 :=
  match x with
  | Ffinite q => round64 (q / 2)
  | _ => x
  end.

(** [a / b] on ints: the quotient rounded once. *)
Definition int_true_div (a b : Z) : exn + float64 :=
  if b =? 0 then inl ZeroDivisionError
  else
    match round64 (inject_Z a / inject_Z b) with
    | Finf _ => inl OverflowError
    | x => inr x
    end.

(** [math.ceil] on a float. *)
Definition math_ceil (x : float64) : exn + Z :=
  match x with
  | Fnan => inl ValueError
  | Finf _ => inl OverflowError
  | Ffinite q => inr (Qceiling q)
  end.

(** A Python number. *)
Inductive py_num : Type :=
| PyInt (z : Z)
| PyFloat (x : float64).

(** ** Layers and networks *)

(** The value of a module's [forward] attribute: its own bound method, or the
    object built at source lines 207 and 235. *)
Inductive forward_fn : Type :=
| BoundForward
| ReDilateConvProcessor (module : string) (dilate : py_num) (mode : string) (activate : bool).

Record Network (W : Type) : Type := mkNetwork {
  weights : W;
  named_modules : list (string * forward_fn)
}.
Arguments mkNetwork {W} _ _.
Arguments weights {W} _.
Arguments named_modules {W} _.

Definition with_modules {W} (net : Network W) (mods : list (string * forward_fn)) : Network W :=
  mkNetwork (weights net) mods.

Definition module_names (mods : list (string * forward_fn)) : list string := mods.*1.

(** ** The closure arguments of [pipeline_processor] (lines 88-98) *)

Record Config (T : Type) : Type := mkConfig {
  ndcfg_tau : Z;
  dilate_tau : Z;
  inflate_tau : Z;
  dilate_settings : option (gmap string float64);
  inflate_settings : option (list string);
  ndcfg_dilate_settings : option (gmap string float64);
  transform : option T;
  progressive : bool
}.
Arguments mkConfig {T} _ _ _ _ _ _ _ _.
Arguments ndcfg_tau {T} _.
Arguments dilate_tau {T} _.
Arguments inflate_tau {T} _.
Arguments dilate_settings {T} _.
Arguments inflate_settings {T} _.
Arguments ndcfg_dilate_settings {T} _.
Arguments transform {T} _.
Arguments progressive {T} _.

(** ** The dilation rate of one layer (lines 201-205 and 229-233) *)

(** [max(math.ceil(dilate * ((tau - i) / tau)), 2)], line 203: the quotient of
    the two ints first (it raises for a zero divisor), then the product with
    the float [dilate], then [math.ceil] (it raises on NaN and on an
    infinity), then [max]. *)
Definition progressive_dilate (dilate : float64) (tau i : Z) : result Z :=
  result_bind (int_true_div (tau - i) tau) (fun fraction =>
  result_bind (math_ceil (f64_mul dilate fraction)) (fun c =>
  inr (Z.max c 2))).

(** The value of [dilate] after line 203, an [int]. *)
Definition progressive_rate (dilate : float64) (tau i : Z) : result py_num :=
  result_bind (progressive_dilate dilate tau i) (fun rate => inr (PyInt rate)).

(** [dilate / 2], line 205, on an [int] or on a [float]. *)
Definition true_div_2 (dilate : py_num) : result float64 :=
  match dilate with
  | PyInt z => int_true_div z 2
  | PyFloat x => inr (f64_half x)
  end.

(** [if i < inflate_tau and name in inflate_settings: dilate = dilate / 2];
    the membership test is evaluated only when [i < inflate_tau], and raises
    on [None]. *)
Definition inflate_halving (inflate_tau : Z) (inflate_settings : option (list string))
    (i : Z) (name : string) (dilate : py_num) : result py_num :=
  if i <? inflate_tau then
    match inflate_settings with
    | None => inl TypeError
    | Some l =>
      if bool_decide (name ∈ l)
      then result_bind (true_div_2 dilate) (fun halved => inr (PyFloat halved))
      else inr dilate
    end
  else inr dilate.

Definition layer_dilate {T} (cfg : Config T) (tau i : Z) (name : string) (base : float64)
    : result py_num :=
  result_bind (if progressive cfg then progressive_rate base tau i else inr (PyFloat base))
    (inflate_halving (inflate_tau cfg) (inflate_settings cfg) i name).

(** ** Replacing and restoring [forward] (lines 197-209 and 219-221) *)

(** The first loop over [unet.named_modules()].  It returns how the loop
    ended, the modules as the loop left them and [backup_forwards].  When an
    exception stops the loop the modules visited before stay replaced and the
    current module is already recorded in [backup_forwards]. *)
Fixpoint patch_modules {T} (cfg : Config T) (settings : option (gmap string float64)) (tau i : Z)
    (mods : list (string * forward_fn)) (backup_forwards : gmap string forward_fn)
    : result unit * list (string * forward_fn) * gmap string forward_fn :=
  match mods with
  | [] => (inr tt, [], backup_forwards)
  | (name, fwd) :: rest =>
    match settings with
    | None => (inl AttributeError, mods, backup_forwards)
    | Some ds =>
      match ds !! name with
      | None =>
        let '(r, rest', b) := patch_modules cfg settings tau i rest backup_forwards in
        (r, (name, fwd) :: rest', b)
      | Some base =>
        let backup1 := <[name := fwd]> backup_forwards in
        match layer_dilate cfg tau i name base with
        | inl e => (inl e, mods, backup1)
        | inr dilate =>
          let '(r, rest', b) := patch_modules cfg settings tau i rest backup1 in
          (r, (name, ReDilateConvProcessor name dilate "bilinear" (i <? tau)) :: rest', b)
        end
      end
    end
  end.

(** The second loop: [module.forward = backup_forwards[name]] for every name
    that [backup_forwards] has. *)
Definition restore_modules (backup_forwards : gmap string forward_fn)
    (mods : list (string * forward_fn)) : list (string * forward_fn) :=
  (fun m : string * forward_fn =>
     match backup_forwards !! m.1 with
     | Some f => (m.1, f)
     | None => m
     end) <$> mods.

(** ** What the script imports *)

(** Tensors and their operations, the U-Net call, the scheduler and the random
    generator.  The U-Net call sees the network object it is applied to, with
    the [forward] attributes in place at that moment, and may raise.
    [rng_state] is the state of the global generators, which [set_seed] resets
    and which [torch.randn] and [scheduler.step] (called with
    [generator=None]) advance. *)
Class Externals : Type := {
  tensor : Type;
  timestep : Type;
  embeds : Type;
  weights_t : Type;
  transform_t : Type;
  rng_state : Type;
  torch_cat2 : tensor -> tensor;
  torch_chunk2 : tensor -> tensor * tensor;
  torch_add : tensor -> tensor -> tensor;
  torch_sub : tensor -> tensor -> tensor;
  torch_scale : Q -> tensor -> tensor;
  rescale_noise_cfg : tensor -> tensor -> Q -> tensor;
  scale_model_input : tensor -> timestep -> tensor;
  scheduler_step : tensor -> timestep -> tensor -> rng_state -> tensor * rng_state;
  unet_call : Network weights_t -> tensor -> timestep -> embeds -> result tensor;
  inflate_weights : weights_t -> list string -> transform_t -> weights_t;
  set_seed : Z -> rng_state -> rng_state;
  torch_randn : Z -> rng_state -> tensor * rng_state;
  encode_prompt : list string -> bool -> embeds;
  set_timesteps : Z -> list timestep;
  prepare_latents : tensor -> tensor
}.

Section Pipeline.
Context `{Ext : Externals}.

Abbreviation network := (Network weights_t).
Abbreviation config := (Config transform_t).

(** ** The machine state and its monad *)

Record Machine : Type := mkMachine {
  self_unet : network;
  unet_inflate : option network;
  unet_inflate_vanilla : option network;
  rng : rng_state
}.

(** What the local variable [unet] refers to. *)
Inductive net_id : Type := SelfUnet | UnetInflate | UnetInflateVanilla.

Definition get_net (id : net_id) (s : Machine) : option network :=
  match id with
  | SelfUnet => Some (self_unet s)
  | UnetInflate => unet_inflate s
  | UnetInflateVanilla => unet_inflate_vanilla s
  end.

Definition set_net (id : net_id) (net : network) (s : Machine) : Machine :=
  match id with
  | SelfUnet => mkMachine net (unet_inflate s) (unet_inflate_vanilla s) (rng s)
  | UnetInflate => mkMachine (self_unet s) (Some net) (unet_inflate_vanilla s) (rng s)
  | UnetInflateVanilla => mkMachine (self_unet s) (unet_inflate s) (Some net) (rng s)
  end.

Definition M (A : Type) : Type := Machine -> result A * Machine.

Definition ret {A} (a : A) : M A := fun s => (inr a, s).

Definition raise {A} (e : exn) : M A := fun s => (inl e, s).

Definition bind {A B} (c : M A) (k : A -> M B) : M B :=
  fun s =>
    match c s with
    | (inl e, s') => (inl e, s')
    | (inr a, s') => k a s'
    end.

Definition lift {A} (r : result A) : M A := fun s => (r, s).

Notation "'let*' x ':=' c 'in' k" := (bind c (fun x => k))
  (at level 10, x pattern, c at level 100, k at level 200).

(** ** One network invocation between the two loops *)

Definition is_not_none {A} (o : option A) : bool :=
  match o with Some _ => true | None => false end.

(** Line 196: [unet_inflate if i < inflate_tau and transform is not None else self.unet]. *)
Definition select_unet (cfg : config) (i : Z) : net_id :=
  if (i <? inflate_tau cfg) && is_not_none (transform cfg) then UnetInflate else SelfUnet.

(** Line 224, the same choice for the second invocation. *)
Definition select_unet_vanilla (cfg : config) (i : Z) : net_id :=
  if (i <? inflate_tau cfg) && is_not_none (transform cfg) then UnetInflateVanilla else SelfUnet.

(** Lines 197-209 (and 225-237): a fresh [backup_forwards], then the first
    loop on the object [unet] refers to. *)
Definition patch_phase (cfg : config) (settings : option (gmap string float64)) (tau i : Z)
    (target : net_id) : M (gmap string forward_fn) :=
  fun s =>
    match get_net target s with
    | None => (inl AttributeError, s)
    | Some net =>
      let '(r, mods', backup_forwards) :=
        patch_modules cfg settings tau i (named_modules net) ∅ in
      (result_bind r (fun _ => inr backup_forwards), set_net target (with_modules net mods') s)
    end.

(** Lines 212-217 (and 239-244): [unet(...).sample]. *)
Definition invoke_phase (target : net_id) (x : tensor) (t : timestep) (emb : embeds) : M tensor :=
  fun s =>
    match get_net target s with
    | None => (inl AttributeError, s)
    | Some net => (unet_call net x t emb, s)
    end.

(** Lines 219-221 (and 246-248). *)
Definition restore_phase (target : net_id) (backup_forwards : gmap string forward_fn) : M unit :=
  fun s =>
    match get_net target s with
    | None => (inl AttributeError, s)
    | Some net =>
      (inr tt, set_net target (with_modules net (restore_modules backup_forwards (named_modules net))) s)
    end.

Definition run_branch (cfg : config) (settings : option (gmap string float64)) (tau i : Z)
    (target : net_id) (x : tensor) (t : timestep) (emb : embeds) : M tensor :=
  let* backup_forwards := patch_phase cfg settings tau i target in
  let* noise := invoke_phase target x t emb in
  let* _ := restore_phase target backup_forwards in
  ret noise.

(** ** One iteration of the loop (lines 192-264) *)

(** Line 141. *)
Definition do_classifier_free_guidance (guidance_scale : Q) : bool :=
  negb (Qle_bool guidance_scale 1).

(** Lines 193-194. *)
Definition latent_model_input (guidance_scale : Q) (t : timestep) (latents : tensor) : tensor :=
  scale_model_input
    (if do_classifier_free_guidance guidance_scale then torch_cat2 latents else latents) t.

(** Lines 196-248: [noise_pred], and [noise_pred_vanilla] when [i < ndcfg_tau]. *)
Definition predict_branches (cfg : config) (guidance_scale : Q) (emb : embeds)
    (i : Z) (t : timestep) (latents : tensor) : M (tensor * option tensor) :=
  let x := latent_model_input guidance_scale t latents in
  let* noise_pred :=
    run_branch cfg (dilate_settings cfg) (dilate_tau cfg) i (select_unet cfg i) x t emb in
  if i <? ndcfg_tau cfg then
    let* noise_pred_vanilla :=
      run_branch cfg (ndcfg_dilate_settings cfg) (ndcfg_tau cfg) i
        (select_unet_vanilla cfg i) x t emb in
    ret (noise_pred, Some noise_pred_vanilla)
  else ret (noise_pred, None).

(** Lines 250-257: the new [noise_pred], and [noise_pred_text] when it is bound. *)
Definition perform_guidance (guidance_scale : Q) (i tau : Z)
    (noise_pred : tensor) (noise_pred_vanilla : option tensor)
    : result (tensor * option tensor) :=
  if do_classifier_free_guidance guidance_scale then
    let '(noise_pred_uncond, noise_pred_text) := torch_chunk2 noise_pred in
    if i <? tau then
      match noise_pred_vanilla with
      | None => inl UnboundLocalError
      | Some v =>
        let '(v_uncond, _) := torch_chunk2 v in
        inr (torch_add v_uncond
               (torch_scale guidance_scale (torch_sub noise_pred_text noise_pred_uncond)),
             Some noise_pred_text)
      end
    else
      inr (torch_add noise_pred_uncond
             (torch_scale guidance_scale (torch_sub noise_pred_text noise_pred_uncond)),
           Some noise_pred_text)
  else inr (noise_pred, None).

(** Lines 259-261. *)
Definition guidance_rescaling (guidance_scale guidance_rescale : Q)
    (guided : tensor * option tensor) : result tensor :=
  if do_classifier_free_guidance guidance_scale && negb (Qle_bool guidance_rescale 0) then
    match guided.2 with
    | None => inl UnboundLocalError
    | Some noise_pred_text => inr (rescale_noise_cfg guided.1 noise_pred_text guidance_rescale)
    end
  else inr guided.1.

(** Lines 192-261: the noise estimate handed to the scheduler. *)
Definition predict_noise (cfg : config) (guidance_scale guidance_rescale : Q) (emb : embeds)
    (i : Z) (t : timestep) (latents : tensor) : M tensor :=
  let* preds := predict_branches cfg guidance_scale emb i t latents in
  let* guided := lift (perform_guidance guidance_scale i (ndcfg_tau cfg) preds.1 preds.2) in
  lift (guidance_rescaling guidance_scale guidance_rescale guided).

(** Line 264. *)
Definition advance (noise_pred : tensor) (t : timestep) (latents : tensor) : M tensor :=
  fun s =>
    let '(latents', g) := scheduler_step noise_pred t latents (rng s) in
    (inr latents', mkMachine (self_unet s) (unet_inflate s) (unet_inflate_vanilla s) g).

Definition denoise_step (cfg : config) (guidance_scale guidance_rescale : Q) (emb : embeds)
    (i : Z) (t : timestep) (latents : tensor) : M tensor :=
  let* noise_pred := predict_noise cfg guidance_scale guidance_rescale emb i t latents in
  advance noise_pred t latents.

(** Line 191, [for i, t in enumerate(timesteps)]; the result lists the value
    of [latents] after each iteration. *)
Fixpoint denoising_loop (cfg : config) (guidance_scale guidance_rescale : Q) (emb : embeds)
    (i : Z) (timesteps : list timestep) (latents : tensor) : M (list tensor) :=
  match timesteps with
  | [] => ret []
  | t :: rest =>
    let* latents' := denoise_step cfg guidance_scale guidance_rescale emb i t latents in
    let* later := denoising_loop cfg guidance_scale guidance_rescale emb (i + 1) rest latents' in
    ret (latents' :: later)
  end.

(** ** Before the loop (lines 141-189) *)

(** Modelled from the spec: [model.inflate_kernels] is not among the sources.
    It enlarges the kernels of the listed layers of the copy it is given, in
    place: each listed layer is a new convolution (with its own [forward]) and
    every layer keeps its name. *)
Definition inflate_kernels (net : network) (names : list string) (R : transform_t) : network :=
  mkNetwork (inflate_weights (weights net) names R)
    ((fun m : string * forward_fn =>
        if bool_decide (m.1 ∈ names) then (m.1, BoundForward) else m) <$> named_modules net).

(** [copy.deepcopy(self.unet)], inflated when [inflate_settings is not None]. *)
Definition inflated_copy (cfg : config) (R : transform_t) (net : network) : network :=
  match inflate_settings cfg with
  | Some names => inflate_kernels net names R
  | None => net
  end.

(** Lines 180-189. *)
Definition prepare_networks (cfg : config) : M unit :=
  fun s =>
    let ui :=
      match transform cfg with
      | Some R => Some (inflated_copy cfg R (self_unet s))
      | None => None
      end in
    let uiv :=
      match transform cfg with
      | Some R => if 0 <? ndcfg_tau cfg then Some (inflated_copy cfg R (self_unet s)) else None
      | None => None
      end in
    (inr tt, mkMachine (self_unet s) ui uiv (rng s)).

(** [forward] up to the end of the denoising loop. *)
Definition forward (cfg : config) (prompt : list string) (num_inference_steps : Z)
    (guidance_scale guidance_rescale : Q) (latents : tensor) : M (list tensor) :=
  let emb := encode_prompt prompt (do_classifier_free_guidance guidance_scale) in
  let timesteps := set_timesteps num_inference_steps in
  let latents0 := prepare_latents latents in
  let* _ := prepare_networks cfg in
  denoising_loop cfg guidance_scale guidance_rescale emb 0 timesteps latents0.

(** Lines 391-410 of [main]: seed, draw the initial latents, sample with the
    defaults [guidance_scale = 7.5] and [guidance_rescale = 0.0]. *)
Definition sample (cfg : config) (seed n : Z) (output_prompts : list string)
    (shape num_inference_steps : Z) : M (list tensor) :=
  fun s =>
    let g0 := set_seed (seed + n) (rng s) in
    let '(latents, g1) := torch_randn shape g0 in
    forward cfg output_prompts num_inference_steps (15 # 2) 0 latents
      (mkMachine (self_unet s) (unet_inflate s) (unet_inflate_vanilla s) g1).

End Pipeline.

Arguments Machine {Ext}.
Arguments mkMachine {Ext} _ _ _ _.

(** ** What the two loops compute, entry by entry *)

Definition base_rate (settings : option (gmap string float64)) (name : string)
    : option float64 :=
  settings ≫= (.!! name).

(** The entry of one module after a first loop that did not raise. *)
Definition patched_entry {T} (cfg : Config T) (settings : option (gmap string float64))
    (tau i : Z)
    (m : string * forward_fn) : string * forward_fn :=
  match base_rate settings m.1 with
  | None => m
  | Some base =>
    match layer_dilate cfg tau i m.1 base with
    | inr dilate => (m.1, ReDilateConvProcessor m.1 dilate "bilinear" (i <? tau))
    | inl _ => m
    end
  end.

(** [backup_forwards] after a first loop that did not raise. *)
Definition recorded (settings : option (gmap string float64)) (mods : list (string * forward_fn))
    (backup_forwards : gmap string forward_fn) : gmap string forward_fn :=
  foldl (fun b m => match base_rate settings m.1 with
                    | Some _ => <[m.1 := m.2]> b
                    | None => b
                    end) backup_forwards mods.

(** At step [i] the rate computation raises for no module of [mods] whose
    name is in the settings. *)
Definition rates_defined {T} (cfg : Config T) (settings : option (gmap string float64))
    (tau i : Z) (mods : list (string * forward_fn)) : Prop :=
  Forall (fun m : string * forward_fn =>
            forall base, base_rate settings m.1 = Some base ->
              exists dilate, layer_dilate cfg tau i m.1 base = inr dilate) mods.

(** Every network object in the state enumerates its modules under distinct
    names, as [named_modules()] does. *)
Definition distinct_names `{Externals} (s : Machine) : Prop :=
  NoDup (module_names (named_modules (self_unet s))) /\
  (forall net, unet_inflate s = Some net -> NoDup (module_names (named_modules net))) /\
  (forall net, unet_inflate_vanilla s = Some net -> NoDup (module_names (named_modules net))).

(** The network objects of two states are the same (the generator state may differ). *)
Definition same_networks `{Externals} (s s' : Machine) : Prop :=
  self_unet s = self_unet s' /\
  unet_inflate s = unet_inflate s' /\
  unet_inflate_vanilla s = unet_inflate_vanilla s'.

(** ** A small instance of the imported operations

    Tensors are lists of rationals (one number per batch entry), timesteps are
    integers and the generator state is a counter.  The network adds to entry
    [k] of its input [(k + 1)] times a gain read off the [forward] attributes
    in place, and rejects a negative timestep. *)
Module Toy.

Definition number (d : py_num) : Q :=
  match d with
  | PyInt z => inject_Z z
  | PyFloat (Ffinite q) => q
  | PyFloat _ => 0
  end.

Definition gain (mods : list (string * forward_fn)) : Q :=
  foldr (fun m acc =>
           match m.2 with
           | ReDilateConvProcessor _ d _ true => Qred (number d + acc)
           | _ => acc
           end) 1%Q mods.

Definition unet (net : Network Z) (x : list Q) (t : Z) (emb : unit) : result (list Q) :=
  if t <? 0 then inl (ExternalError "negative timestep")
  else inr (imap (fun k v => Qred (v + inject_Z (Z.of_nat k + 1 + weights net)
                                       * gain (named_modules net))) x).

Definition chunk2 (x : list Q) : list Q * list Q :=
  let n := Nat.div2 (S (length x)) in (take n x, drop n x).

#[global] Instance ext : Externals := {|
  tensor := list Q;
  timestep := Z;
  embeds := unit;
  weights_t := Z;
  transform_t := unit;
  rng_state := Z;
  torch_cat2 := fun x => x ++ x;
  torch_chunk2 := chunk2;
  torch_add := zip_with (fun a b => Qred (a + b));
  torch_sub := zip_with (fun a b => Qred (a - b));
  torch_scale := fun q x => (fun a => Qred (q * a)) <$> x;
  rescale_noise_cfg := fun np txt gr =>
    zip_with (fun a b => Qred (gr * b + (1 - gr) * a)) np txt;
  scale_model_input := fun x _ => x;
  scheduler_step := fun noise _ latents g =>
    (zip_with (fun l n => Qred (l - n / 2 + inject_Z g)) latents noise, g + 1);
  unet_call := unet;
  inflate_weights := fun w names _ => w + Z.of_nat (length names);
  set_seed := fun seed _ => seed;
  torch_randn := fun shape g => (replicate (Z.to_nat shape) (inject_Z g), g + 1);
  encode_prompt := fun _ _ => tt;
  set_timesteps := fun n => Z.of_nat <$> reverse (seq 0 (Z.to_nat n));
  prepare_latents := fun x => x
|}.

(** One convolution ["conv"] and one layer that no settings file mentions. *)
Definition base_unet : Network Z := mkNetwork 0 [("conv", BoundForward); ("norm", BoundForward)].

(** [self.unet] before any sampling, with the generator counter at [g]. *)
Definition machine_at (g : Z) : Machine := mkMachine base_unet None None g.

Definition machine : Machine := machine_at 0.

(** [dilate_tau = 2], [ndcfg_tau = 1], [inflate_tau = 1], ["conv"] with rate 4
    in the first settings file, rate 2 in the second, listed for inflation. *)
Definition cfg (tr : option unit) (prog : bool) : Config unit :=
  mkConfig 1 2 1 (Some {[ "conv" := Ffinite 4 ]}) (Some ["conv"])
    (Some {[ "conv" := Ffinite 2 ]}) tr prog.

(** [dilate_tau = 25] with a progressive schedule and rate 25 for ["conv"]. *)
Definition cfg_rounding : Config unit :=
  mkConfig 0 25 0 (Some {[ "conv" := Ffinite 25 ]}) (Some []) (Some ∅) None true.

(** [dilate_tau = 0] with a progressive schedule. *)
Definition cfg_tau0 : Config unit :=
  mkConfig 0 0 0 (Some {[ "conv" := Ffinite 4 ]}) (Some []) (Some ∅) None true.

End Toy.

(** ** The settings files (lines 298-314)

    A [str] is a Rocq string, one [ascii] per character, so the texts covered
    are those whose characters are below U+0100.  A file is given by its
    characters; [open(path, 'r')] delivers them with every line ending
    (carriage return and line feed, or either alone) turned into a line
    feed. *)

Definition newline : ascii := "010"%char.

Definition carriage_return : ascii := "013"%char.

(** The text that [open(path, 'r')] delivers for a file. *)
Fixpoint universal_newlines (file : string) : string :=
  match file with
  | EmptyString => EmptyString
  | String c rest =>
    if Ascii.eqb c carriage_return then
      match rest with
      | String c' rest' =>
        if Ascii.eqb c' newline then String newline (universal_newlines rest')
        else String newline (universal_newlines rest)
      | EmptyString => String newline EmptyString
      end
    else String c (universal_newlines rest)
  end.

(** [str.isspace] on one character below U+0100: U+0009 to U+000D, U+001C to
    U+0020, U+0085 and U+00A0. *)
Definition is_space (c : ascii) : bool :=
  let n := nat_of_ascii c in
  ((9 <=? n)%nat && (n <=? 13)%nat) || ((28 <=? n)%nat && (n <=? 32)%nat)
  || (n =? 133)%nat || (n =? 160)%nat.

Fixpoint lstrip (s : string) : string :=
  match s with
  | EmptyString => EmptyString
  | String c rest => if is_space c then lstrip rest else s
  end.

Fixpoint rstrip (s : string) : string :=
  match s with
  | EmptyString => EmptyString
  | String c rest =>
    match rstrip rest with
    | EmptyString => if is_space c then EmptyString else String c EmptyString
    | kept => String c kept
    end
  end.

(** [str.strip()]. *)
Definition strip (s : string) : string := rstrip (lstrip s).

(** [f.readlines()]: the text cut after each newline, the newlines kept. *)
Fixpoint readlines (text : string) : list string :=
  match text with
  | EmptyString => []
  | String c rest =>
    if Ascii.eqb c newline then String c EmptyString :: readlines rest
    else
      match readlines rest with
      | [] => [String c EmptyString]
      | line :: lines => String c line :: lines
      end
  end.

(** [str.split(sep)] for a separator of one character. *)
Fixpoint split (sep : ascii) (s : string) : list string :=
  match s with
  | EmptyString => [EmptyString]
  | String c rest =>
    if Ascii.eqb c sep then EmptyString :: split sep rest
    else
      match split sep rest with
      | [] => [String c EmptyString]
      | piece :: pieces => String c piece :: pieces
      end
  end.

(** Lines 298-302, on the characters of the file at [path]. *)
Definition read_module_list (file : string) : list string :=
  strip <$> readlines (universal_newlines file).

Section DilateSettings.

(** Python's [float] on a [str]; [None] is its [ValueError]. *)
Variable float : string -> option float64.

(** The loop of lines 310-313 from a given dictionary; [None] is the
    [ValueError] of the unpacking [name, dilate = ...] or of [float]. *)
Fixpoint read_dilate_lines (raw_lines : list string) (dilate_settings : gmap string float64)
    : option (gmap string float64) :=
  match raw_lines with
  | [] => Some dilate_settings
  | raw_line :: rest =>
    match split ":" raw_line with
    | [name; dilate] =>
      match float dilate with
      | Some rate => read_dilate_lines rest (<[name := rate]> dilate_settings)
      | None => None
      end
    | _ => None
    end
  end.

(** Lines 305-314, on the characters of the file at [path]. *)
Definition read_dilate_settings (file : string) : option (gmap string float64) :=
  read_dilate_lines (readlines (universal_newlines file)) ∅.

(** Lines 359-370 and 398-408 of [main]: the closure arguments built from the
    configuration.  A file argument is [None] when the configuration entry is
    [None], and the characters of the file otherwise. *)
Definition main_config {T} (ndcfg_tau dilate_tau inflate_tau : Z) (progressive : bool)
    (dilate_file ndcfg_dilate_file inflate_file : option string) (transform : option T)
    : option (Config T) :=
  dilate_settings ← match dilate_file with
                    | Some file => read_dilate_settings file
                    | None => Some (∅ : gmap string float64)
                    end;
  ndcfg_dilate_settings ← match ndcfg_dilate_file with
                          | Some file => read_dilate_settings file
                          | None => Some (∅ : gmap string float64)
                          end;
  let inflate_settings :=
    match inflate_file with
    | Some file => read_module_list file
    | None => []
    end in
  Some (mkConfig ndcfg_tau dilate_tau inflate_tau (Some dilate_settings)
          (Some inflate_settings) (Some ndcfg_dilate_settings) transform progressive).

End DilateSettings.

(** ** The prompt batches of [main] (lines 382-389) *)

(** [math.ceil(len(validation_prompt) / inference_batch_size)]. *)
Definition num_batches (n_prompts inference_batch_size : Z) : result Z :=
  if inference_batch_size =? 0 then inl ZeroDivisionError
  else inr (Qceiling (inject_Z n_prompts / inject_Z inference_batch_size)).

(** [l[start:stop]] for the bounds that occur, which are not negative. *)
Definition slice {A} (l : list A) (start stop : Z) : list A :=
  take (Z.to_nat (stop - start)) (drop (Z.to_nat start) l).

(** Lines 388-389, the batch of iteration [i]. *)
Definition output_prompts {A} (validation_prompt : list A) (inference_batch_size i : Z)
    : list A :=
  slice validation_prompt (i * inference_batch_size)
    (Z.min ((i + 1) * inference_batch_size) (Z.of_nat (length validation_prompt))).

(** The batches that the loop of line 387 goes through, in order. *)
Definition prompt_batches {A} (validation_prompt : list A) (inference_batch_size : Z)
    : result (list (list A)) :=
  result_bind (num_batches (Z.of_nat (length validation_prompt)) inference_batch_size)
    (fun n => inr ((fun i : nat => output_prompts validation_prompt inference_batch_size
                                     (Z.of_nat i)) <$> seq 0 (Z.to_nat n))).

(** ** [parse_args] after the parser has run (lines 76-85) *)

Inductive arg_value : Type :=
| ArgNone
| ArgStr (s : string)
| ArgInt (z : Z).

(** The attributes of the namespace that the parser of lines 28-74 returns. *)
Definition declared_arguments : list string :=
  ["pretrained_model_name_or_path"; "revision"; "validation_prompt"; "cache_dir";
   "seed"; "config"; "logging_dir"; "mixed_precision"].

Definition getattr (args : gmap string arg_value) (name : string) : result arg_value :=
  match args !! name with
  | Some v => inr v
  | None => inl AttributeError
  end.

Definition arg_is_int (v : arg_value) (z : Z) : bool :=
  match v with
  | ArgInt z' => z' =? z
  | _ => false
  end.

(** Lines 77-85.  [args] is what [parser.parse_args()] returned and
    [LOCAL_RANK] the integer value of the environment variable, [None] when
    it is not set. *)
Definition parse_args (args : gmap string arg_value) (LOCAL_RANK : option Z)
    : result (gmap string arg_value) :=
  let env_local_rank := default (-1) LOCAL_RANK in
  if negb (env_local_rank =? -1) then
    result_bind (getattr args "local_rank")
      (fun local_rank =>
         if negb (arg_is_int local_rank env_local_rank)
         then inr (<["local_rank" := ArgInt env_local_rank]> args)
         else inr args)
  else inr args.

(** A stand-in for Python's [float] that knows the texts ["2"] and ["4.0"],
    with white space around them. *)
Module ToyFiles.

Definition float (s : string) : option float64 :=
  if String.eqb (strip s) "2" then Some (Ffinite 2)
  else if String.eqb (strip s) "4.0" then Some (Ffinite 4)
  else None.

End ToyFiles.

(** ** Vocabulary of the statements *)

(** A [backup_forwards] is taken for [target] in state [s] and released
    again: the first loop runs to its end from [s], it leaves the other
    network objects as they are in [s], and the second loop gives [s] back. *)
Definition branch_scoped `{Externals} (cfg : Config transform_t)
    (settings : option (gmap string float64)) (tau i : Z) (target : net_id) (s : Machine) : Prop :=
  exists backup_forwards s1,
    patch_phase cfg settings tau i target s = (inr backup_forwards, s1) /\
    (forall id, id <> target -> get_net id s1 = get_net id s) /\
    restore_phase target backup_forwards s1 = (inr tt, s).


(** The progressive formula as the specification writes it,
    [max(ceil(base_rate * (tau - i) / tau), 2)], in exact arithmetic. *)
Definition exact_progressive_rate (base : Q) (tau i : Z) : Z :=
  Z.max (Qceiling (base * inject_Z (tau - i) / inject_Z tau)) 2.

(** The float product that line 203 hands to [math.ceil]: the quotient of
    the ints rounded, then the product rounded. *)
Definition rounded_product (base : float64) (tau i : Z) : float64 :=
  f64_mul base (round64 (inject_Z (tau - i) / inject_Z tau)).

(** [dilate / 2] when it does not overflow. *)
Definition halved (dilate : py_num) : float64 :=
  match dilate with
  | PyInt z => round64 (inject_Z z / 2)
  | PyFloat x => f64_half x
  end.

(** A finite binary64 number. *)
Definition finite_float (x : float64) : Prop :=
  exists q, x = Ffinite q /\ round64 q = Ffinite q.

(** The characters of a [str]. *)
Fixpoint chars (s : string) : list ascii :=
  match s with
  | EmptyString => []
  | String c rest => c :: chars rest
  end.

(** The number of occurrences of a character, [str.count]. *)
Fixpoint count_char (c : ascii) (s : string) : nat :=
  match s with
  | EmptyString => 0%nat
  | String c' rest => ((if Ascii.eqb c' c then 1 else 0) + count_char c rest)%nat
  end.

(** The text that has the given lines, each closed by a newline. *)
Definition write_lines (lines : list string) : string :=
  foldr (fun line text => line +:+ String newline text) EmptyString lines.

(** The line [name:value] of a dilation settings file, without its newline. *)
Definition settings_line (entry : string * string * float64) : string :=
  entry.1.1 +:+ String ":" entry.1.2.

(** A text without any line ending. *)
Definition one_line (s : string) : Prop :=
  (newline ∉ chars s) /\ (carriage_return ∉ chars s).

(** A name and the text of a value as they can stand on a settings line. *)
Definition plain_field (s : string) : Prop :=
  one_line s /\ ((":"%char) ∉ chars s).

(** An entry [(name, value, rate)] whose line [name:value] can be read: no
    colon or line ending inside the name or the value, and [float] turns the
    value followed by the newline of its line into [rate]. *)
Definition entry_readable (float : string -> option float64)
    (entry : string * string * float64) : Prop :=
  plain_field entry.1.1 /\ plain_field entry.1.2 /\
  float (entry.1.2 +:+ String newline EmptyString) = Some entry.2.

(** Classifier-free guidance of a single prediction with the optional
    rescaling, as a sampling loop without the ndcfg window computes it. *)
Definition plain_guidance `{Externals} (guidance_scale guidance_rescale : Q)
    (noise_pred : tensor) : tensor :=
  if do_classifier_free_guidance guidance_scale then
    let uncond := (torch_chunk2 noise_pred).1 in
    let text := (torch_chunk2 noise_pred).2 in
    let guided := torch_add uncond (torch_scale guidance_scale (torch_sub text uncond)) in
    if negb (Qle_bool guidance_rescale 0)
    then rescale_noise_cfg guided text guidance_rescale
    else guided
  else noise_pred.

(** * Properties *)

(** ** binary64 rounding *)

Lemma two_pos (e : Z) : (0 < 2 ^ e)%Q.
Proof. by apply Qpower_0_lt. Qed.

Lemma two_power_Z (a : Z) : 0 <= a -> (inject_Z (2 ^ a) == 2 ^ a)%Q.
Proof. intros Ha. by rewrite Zpower_Qpower. Qed.

(* a quotient of integers against a quotient of powers of two *)
Lemma quotient_lt (n d a b : Z) :
  0 < d -> 0 <= a -> 0 <= b -> n * 2 ^ b < 2 ^ a * d ->
  (inject_Z n / inject_Z d < 2 ^ (a - b))%Q.
Proof.
  intros Hd Ha Hb Hlt.
  assert (HD : (0 < inject_Z d)%Q) by (change 0%Q with (inject_Z 0); rewrite <- Zlt_Qlt; lia).
  rewrite Qpower_minus by discriminate.
  apply Qlt_shift_div_r; [done|].
  unfold Qdiv. rewrite <- Qmult_assoc, (Qmult_comm (/ _)), Qmult_assoc.
  apply Qlt_shift_div_l; [apply two_pos|].
  rewrite <- !two_power_Z, <- !inject_Z_mult, <- Zlt_Qlt by done. lia.
Qed.

Lemma quotient_le (n d a b : Z) :
  0 < d -> 0 <= a -> 0 <= b -> 2 ^ a * d <= n * 2 ^ b ->
  (2 ^ (a - b) <= inject_Z n / inject_Z d)%Q.
Proof.
  intros Hd Ha Hb Hle.
  assert (HD : (0 < inject_Z d)%Q) by (change 0%Q with (inject_Z 0); rewrite <- Zlt_Qlt; lia).
  rewrite Qpower_minus by discriminate.
  apply Qle_shift_div_l; [done|].
  unfold Qdiv. rewrite <- Qmult_assoc, (Qmult_comm (/ _)), Qmult_assoc.
  apply Qle_shift_div_r; [apply two_pos|].
  rewrite <- !two_power_Z, <- !inject_Z_mult, <- Zle_Qle by done. lia.
Qed.

Lemma ilog2_spec (x : Q) :
  (0 < x)%Q -> (2 ^ ilog2 x <= x)%Q /\ (x < 2 ^ (ilog2 x + 1))%Q.
Proof.
  intros Hx. destruct x as [n d]. unfold ilog2. simpl Qnum. simpl Qden.
  assert (Hn : 0 < n) by (unfold Qlt in Hx; simpl in Hx; lia).
  set (a := Z.log2 n). set (b := Z.log2 (Z.pos d)).
  assert (Ha : 0 <= a) by apply Z.log2_nonneg.
  assert (Hb : 0 <= b) by apply Z.log2_nonneg.
  destruct (Z.log2_spec n Hn) as [Ha1 Ha2]. fold a in Ha1, Ha2.
  destruct (Z.log2_spec (Z.pos d) ltac:(lia)) as [Hb1 Hb2]. fold b in Hb1, Hb2.
  assert (Hx' : (n # d == inject_Z n / inject_Z (Z.pos d))%Q) by apply Qmake_Qdiv.
  assert (Hup : (n # d < 2 ^ (a - b + 1))%Q).
  { rewrite Hx'. replace (a - b + 1) with ((a + 1) - b) by lia.
    apply quotient_lt; try lia. replace (a + 1) with (Z.succ a) by lia. nia. }
  assert (Hlow : (2 ^ (a - b - 1) <= n # d)%Q).
  { rewrite Hx'. replace (a - b - 1) with (a - (b + 1)) by lia.
    apply quotient_le; try lia. replace (b + 1) with (Z.succ b) by lia. nia. }
  destruct (Qle_bool (2 ^ (a - b)) (n # d)) eqn:Hc.
  - apply Qle_bool_iff in Hc. split; done.
  - split; [done|]. replace (a - b - 1 + 1) with (a - b) by lia.
    apply Qnot_le_lt. intros Hle. apply Qle_bool_iff in Hle. congruence.
Qed.

Lemma ilog2_mono (x y : Q) : (0 < x)%Q -> (x <= y)%Q -> ilog2 x <= ilog2 y.
Proof.
  intros Hx Hxy.
  destruct (ilog2_spec x Hx) as [Hx1 _].
  destruct (ilog2_spec y ltac:(lra)) as [_ Hy2].
  assert (Hlt : (2 ^ ilog2 x < 2 ^ (ilog2 y + 1))%Q) by lra.
  apply Qpower_lt_compat_l_inv in Hlt; [lia|reflexivity].
Qed.

Lemma rhe_cases (x : Q) :
  round_half_even x = Qfloor x /\ (x - inject_Z (Qfloor x) <= 1 # 2)%Q \/
  round_half_even x = Qfloor x + 1 /\ (1 # 2 <= x - inject_Z (Qfloor x))%Q.
Proof.
  unfold round_half_even.
  destruct (x - inject_Z (Qfloor x) ?= 1 # 2)%Q eqn:Hc.
  - apply Qeq_alt in Hc. destruct (Z.even (Qfloor x)); [left|right]; (split; [done|lra]).
  - apply Qlt_alt in Hc. left. split; [done|lra].
  - apply Qgt_alt in Hc. right. split; [done|lra].
Qed.

Lemma floor_bounds (x : Q) : (inject_Z (Qfloor x) <= x)%Q /\ (x < inject_Z (Qfloor x) + 1)%Q.
Proof.
  split; [apply Qfloor_le|]. pose proof (Qlt_floor x) as H.
  rewrite inject_Z_plus in H. exact H.
Qed.

Lemma rhe_error (x : Q) :
  (x - (1 # 2) <= inject_Z (round_half_even x))%Q /\
  (inject_Z (round_half_even x) <= x + (1 # 2))%Q.
Proof.
  destruct (floor_bounds x) as [Hf1 Hf2].
  destruct (rhe_cases x) as [[-> H]|[-> H]]; rewrite ?inject_Z_plus;
    change (inject_Z 1) with 1%Q; split; lra.
Qed.

Lemma rhe_mono (x y : Q) : (x <= y)%Q -> round_half_even x <= round_half_even y.
Proof.
  intros Hxy. pose proof (Qfloor_resp_le _ _ Hxy) as Hf.
  destruct (Z.eq_dec (Qfloor x) (Qfloor y)) as [Heq|Hne].
  - unfold round_half_even. rewrite <- Heq.
    destruct (Qcompare_spec (x - inject_Z (Qfloor x)) (1 # 2)) as [Hx|Hx|Hx];
      destruct (Qcompare_spec (y - inject_Z (Qfloor x)) (1 # 2)) as [Hy|Hy|Hy];
      try lia; try (destruct (Z.even (Qfloor x)); lia); exfalso; lra.
  - destruct (rhe_cases x) as [[-> _]|[-> _]], (rhe_cases y) as [[-> _]|[-> _]]; lia.
Qed.

Lemma rhe_integer (n : Z) : round_half_even (inject_Z n) = n.
Proof.
  destruct (rhe_cases (inject_Z n)) as [[-> _]|[_ H]]; rewrite Qfloor_Z in *; [done|lra].
Qed.

Lemma ulp_pos (x : Q) : (0 < ulp x)%Q.
Proof. apply two_pos. Qed.

Lemma two_power_plus (a b : Z) : (2 ^ (a + b) == 2 ^ a * 2 ^ b)%Q.
Proof. by apply Qpower_plus. Qed.

Lemma scaled_mono (x y u : Q) : (0 < u)%Q -> (x <= y)%Q -> (x / u <= y / u)%Q.
Proof.
  intros Hu Hxy. unfold Qdiv. apply Qmult_le_compat_r; [done|].
  apply Qlt_le_weak. by apply Qinv_lt_0_compat.
Qed.

Lemma power_quotient (e k : Z) : 0 <= k -> (2 ^ e / 2 ^ (e - k) == inject_Z (2 ^ k))%Q.
Proof.
  intros Hk. rewrite two_power_Z by done.
  replace e with ((e - k) + k) at 1 by lia. rewrite two_power_plus.
  field. apply Qpower_not_0. discriminate.
Qed.

Lemma scale_power (k e : Z) : 0 <= k -> (inject_Z (2 ^ k) * 2 ^ (e - k) == 2 ^ e)%Q.
Proof.
  intros Hk. rewrite two_power_Z by done. rewrite <- two_power_plus.
  replace (k + (e - k)) with e by lia. reflexivity.
Qed.

Lemma round_value_upper (x : Q) :
  (0 < x)%Q -> (round_value x <= 2 ^ (exponent x + 1))%Q.
Proof.
  intros Hx. unfold round_value, ulp. set (e := exponent x).
  destruct (ilog2_spec x Hx) as [_ Hup].
  assert (He : (2 ^ (ilog2 x + 1) <= 2 ^ (e + 1))%Q).
  { apply Qpower_le_compat_l; [unfold e, exponent; lia|discriminate]. }
  assert (Hs : (x / 2 ^ (e - 52) <= inject_Z (2 ^ 53))%Q).
  { rewrite <- (power_quotient (e + 1) 53) by lia.
    replace (e + 1 - 53) with (e - 52) by lia. apply scaled_mono; [apply two_pos|lra]. }
  apply rhe_mono in Hs. rewrite rhe_integer in Hs.
  apply Qle_trans with (inject_Z (2 ^ 53) * 2 ^ (e - 52))%Q.
  - apply Qmult_le_compat_r; [by rewrite <- Zle_Qle|apply Qlt_le_weak, two_pos].
  - apply Qle_lteq. right. replace (e - 52) with (e + 1 - 53) by lia.
    by apply scale_power.
Qed.

Lemma round_value_lower (x : Q) :
  (0 < x)%Q -> -1022 <= ilog2 x -> (2 ^ exponent x <= round_value x)%Q.
Proof.
  intros Hx Hn. unfold round_value, ulp.
  assert (He : exponent x = ilog2 x) by (unfold exponent; lia). rewrite He.
  destruct (ilog2_spec x Hx) as [Hlow _]. set (e := ilog2 x) in *.
  assert (Hs : (inject_Z (2 ^ 52) <= x / 2 ^ (e - 52))%Q).
  { rewrite <- (power_quotient e 52) by lia. apply scaled_mono; [apply two_pos|done]. }
  apply rhe_mono in Hs. rewrite rhe_integer in Hs.
  apply Qle_trans with (inject_Z (2 ^ 52) * 2 ^ (e - 52))%Q.
  - apply Qle_lteq. right. symmetry. by apply scale_power.
  - apply Qmult_le_compat_r; [by rewrite <- Zle_Qle|apply Qlt_le_weak, two_pos].
Qed.

Lemma exponent_mono (x y : Q) : (0 < x)%Q -> (x <= y)%Q -> exponent x <= exponent y.
Proof. intros Hx Hxy. unfold exponent. pose proof (ilog2_mono x y Hx Hxy). lia. Qed.

Lemma round_value_mono (x y : Q) :
  (0 < x)%Q -> (x <= y)%Q -> (round_value x <= round_value y)%Q.
Proof.
  intros Hx Hxy. pose proof (exponent_mono x y Hx Hxy) as He.
  destruct (Z.eq_dec (exponent x) (exponent y)) as [Heq|Hne].
  - unfold round_value, ulp. rewrite Heq.
    apply Qmult_le_compat_r; [|apply Qlt_le_weak, two_pos].
    rewrite <- Zle_Qle. apply rhe_mono, scaled_mono; [apply two_pos|done].
  - apply Qle_trans with (2 ^ (exponent x + 1))%Q; [by apply round_value_upper|].
    apply Qle_trans with (2 ^ exponent y)%Q.
    + apply Qpower_le_compat_l; [lia|discriminate].
    + apply round_value_lower; [lra|]. unfold exponent in *. lia.
Qed.

Lemma round_value_nonneg (x : Q) : (0 < x)%Q -> (0 <= round_value x)%Q.
Proof.
  intros Hx. unfold round_value. apply Qmult_le_0_compat; [|apply Qlt_le_weak, ulp_pos].
  change 0%Q with (inject_Z 0). rewrite <- Zle_Qle. rewrite <- (rhe_integer 0).
  apply rhe_mono. apply Qlt_le_weak. apply Qlt_shift_div_l; [apply ulp_pos|].
  by rewrite Qmult_0_l.
Qed.

Lemma round_value_error (x : Q) :
  (0 < x)%Q ->
  (x - ulp x / 2 <= round_value x)%Q /\ (round_value x <= x + ulp x / 2)%Q.
Proof.
  intros Hx. unfold round_value. pose proof (ulp_pos x) as Hu.
  destruct (rhe_error (x / ulp x)) as [H1 H2].
  split.
  - apply Qle_trans with ((x / ulp x - (1 # 2)) * ulp x)%Q.
    + apply Qle_lteq. right. field. lra.
    + apply Qmult_le_compat_r; lra.
  - apply Qle_trans with ((x / ulp x + (1 # 2)) * ulp x)%Q.
    + apply Qmult_le_compat_r; lra.
    + apply Qle_lteq. right. field. lra.
Qed.

Lemma round_positive_mono (x y : Q) :
  (0 < x)%Q -> (x <= y)%Q -> f64_le (round_positive x) (round_positive y).
Proof.
  intros Hx Hxy. pose proof (round_value_mono x y Hx Hxy) as Hv. unfold round_positive.
  destruct (Qle_bool (2 ^ 1024) (round_value x)) eqn:Hox;
    destruct (Qle_bool (2 ^ 1024) (round_value y)) eqn:Hoy; simpl; try done.
  - apply Qle_bool_iff in Hox.
    assert (Hy : (2 ^ 1024 <= round_value y)%Q) by lra.
    apply Qle_bool_iff in Hy. congruence.
  - by rewrite !Qred_correct.
Qed.

Lemma round_positive_nonneg (x : Q) :
  (0 < x)%Q -> f64_le (Ffinite 0) (round_positive x).
Proof.
  intros Hx. unfold round_positive.
  destruct (Qle_bool (2 ^ 1024) (round_value x)); simpl; [done|].
  rewrite Qred_correct. by apply round_value_nonneg.
Qed.

Lemma f64_le_opp (x y : float64) : f64_le x y -> f64_le (f64_opp y) (f64_opp x).
Proof.
  destruct x as [|[]|p], y as [|[]|q]; simpl; try done.
  rewrite !Qred_correct. lra.
Qed.

Lemma f64_le_trans (x y z : float64) : f64_le x y -> f64_le y z -> f64_le x z.
Proof.
  destruct x as [|[]|p], y as [|[]|q], z as [|[]|r]; simpl; try done. lra.
Qed.

Lemma round64_mono (x y : Q) : (x <= y)%Q -> f64_le (round64 x) (round64 y).
Proof.
  intros Hxy. unfold round64.
  destruct (Qcompare_spec x 0) as [Hx|Hx|Hx]; destruct (Qcompare_spec y 0) as [Hy|Hy|Hy];
    try (exfalso; lra).
  - simpl. lra.
  - by apply round_positive_nonneg.
  - apply (f64_le_opp (Ffinite 0) (round_positive (- x))).
    apply round_positive_nonneg. lra.
  - apply f64_le_opp. apply round_positive_mono; lra.
  - apply f64_le_trans with (Ffinite 0).
    + apply (f64_le_opp (Ffinite 0) (round_positive (- x))).
      apply round_positive_nonneg. lra.
    + by apply round_positive_nonneg.
  - by apply round_positive_mono.
Qed.

Lemma round64_not_nan (x : Q) : round64 x <> Fnan.
Proof.
  unfold round64, round_positive.
  destruct (x ?= 0)%Q; [done| |]; by destruct (Qle_bool _ _).
Qed.

(** A finite result is below [2 ^ 1024] in magnitude. *)
Lemma round64_finite_bound (x v : Q) :
  round64 x = Ffinite v -> (- 2 ^ 1024 < v)%Q /\ (v < 2 ^ 1024)%Q.
Proof.
  unfold round64, round_positive. pose proof (two_pos 1024) as Hp.
  destruct (Qcompare_spec x 0) as [Hx|Hx|Hx].
  - intros Hv. inversion Hv. split; lra.
  - destruct (Qle_bool (2 ^ 1024) (round_value (- x))) eqn:Ho; simpl; [done|].
    intros Hv. inversion Hv. rewrite !Qred_correct.
    assert (Hn : (0 <= round_value (- x))%Q) by (apply round_value_nonneg; lra).
    assert (Hlt : ~ (2 ^ 1024 <= round_value (- x))%Q).
    { intros Hle. apply Qle_bool_iff in Hle. congruence. }
    split; lra.
  - destruct (Qle_bool (2 ^ 1024) (round_value x)) eqn:Ho; [done|].
    intros Hv. inversion Hv. rewrite !Qred_correct.
    assert (Hn : (0 <= round_value x)%Q) by (by apply round_value_nonneg).
    assert (Hlt : ~ (2 ^ 1024 <= round_value x)%Q).
    { intros Hle. apply Qle_bool_iff in Hle. congruence. }
    split; lra.
Qed.

(** Between two finite values the result is finite. *)
Lemma f64_between (x : float64) (a b : Q) :
  f64_le (Ffinite a) x -> f64_le x (Ffinite b) ->
  exists v, x = Ffinite v /\ (a <= v)%Q /\ (v <= b)%Q.
Proof. destruct x as [|[]|v]; simpl; try done. eauto. Qed.

Lemma round64_one : round64 1 = Ffinite 1.
Proof. vm_compute. reflexivity. Qed.

Lemma round64_positive_value (x v : Q) :
  (0 < x)%Q -> round64 x = Ffinite v -> (v == round_value x)%Q.
Proof.
  intros Hx. unfold round64, round_positive.
  destruct (Qcompare_spec x 0) as [H0|H0|H0]; try (exfalso; lra).
  destruct (Qle_bool (2 ^ 1024) (round_value x)); [done|].
  intros Hv. inversion Hv. apply Qred_correct.
Qed.

(** ** The arithmetic of line 203 *)

#[local] Arguments round64 : simpl never.

Lemma fraction_decreasing (tau i j : Z) :
  0 < tau -> i <= j ->
  (inject_Z (tau - j) / inject_Z tau <= inject_Z (tau - i) / inject_Z tau)%Q.
Proof.
  intros Htau Hij. unfold Qdiv. apply Qmult_le_compat_r.
  - rewrite <- Zle_Qle. lia.
  - apply Qinv_le_0_compat. change 0%Q with (inject_Z 0). rewrite <- Zle_Qle. lia.
Qed.

Lemma tau_positive (tau : Z) : 0 < tau -> (0 < inject_Z tau)%Q.
Proof. intros Htau. change 0%Q with (inject_Z 0). rewrite <- Zlt_Qlt. lia. Qed.

Lemma fraction_bounds (tau i lo hi : Z) :
  0 < tau -> lo * tau <= tau - i <= hi * tau ->
  (inject_Z lo <= inject_Z (tau - i) / inject_Z tau)%Q /\
  (inject_Z (tau - i) / inject_Z tau <= inject_Z hi)%Q.
Proof.
  intros Htau [Hlo Hhi]. pose proof (tau_positive tau Htau) as Hq. split.
  - apply Qle_shift_div_l; [done|]. rewrite <- inject_Z_mult, <- Zle_Qle. lia.
  - apply Qle_shift_div_r; [done|]. rewrite <- inject_Z_mult, <- Zle_Qle. lia.
Qed.

(** Inside the window the quotient of line 203 is a float between 0 and 1. *)
Lemma fraction_in_window (tau i : Z) :
  0 < tau -> 0 <= i <= tau ->
  exists f, round64 (inject_Z (tau - i) / inject_Z tau) = Ffinite f /\
            int_true_div (tau - i) tau = inr (Ffinite f) /\ (0 <= f)%Q /\ (f <= 1)%Q.
Proof.
  intros Htau Hi.
  destruct (fraction_bounds tau i 0 1 Htau ltac:(lia)) as [Hlo Hhi].
  apply round64_mono in Hlo, Hhi.
  change (round64 (inject_Z 0)) with (Ffinite 0) in Hlo.
  change (inject_Z 1) with 1%Q in Hhi. rewrite round64_one in Hhi.
  destruct (f64_between _ _ _ Hlo Hhi) as (f & Hf & H0 & H1).
  exists f. unfold int_true_div. destruct (Z.eqb_spec tau 0); [lia|]. by rewrite Hf.
Qed.

Lemma product_in_window (b f : Q) :
  round64 b = Ffinite b -> (0 <= f)%Q -> (f <= 1)%Q ->
  exists p, f64_mul (Ffinite b) (Ffinite f) = Ffinite p /\
    ((0 <= b)%Q -> (0 <= p)%Q /\ (p <= b)%Q) /\ ((b <= 0)%Q -> (b <= p)%Q /\ (p <= 0)%Q).
Proof.
  intros Hb H0 H1. simpl. destruct (Qlt_le_dec b 0) as [Hneg|Hpos].
  - assert (Hlo : (b <= b * f)%Q) by nra. assert (Hhi : (b * f <= 0)%Q) by nra.
    apply round64_mono in Hlo, Hhi. rewrite Hb in Hlo.
    destruct (f64_between _ _ _ Hlo Hhi) as (p & Hp & Hp1 & Hp2).
    exists p. split; [done|]. split; intros ?; split; lra.
  - assert (Hlo : (0 <= b * f)%Q) by nra. assert (Hhi : (b * f <= b)%Q) by nra.
    apply round64_mono in Hlo, Hhi. rewrite Hb in Hhi.
    destruct (f64_between _ _ _ Hlo Hhi) as (p & Hp & Hp1 & Hp2).
    exists p. split; [done|]. split; intros ?; split; lra.
Qed.

Lemma progressive_dilate_value (b f p : Q) (tau i : Z) :
  tau <> 0 ->
  round64 (inject_Z (tau - i) / inject_Z tau) = Ffinite f ->
  f64_mul (Ffinite b) (Ffinite f) = Ffinite p ->
  progressive_dilate (Ffinite b) tau i = inr (Z.max (Qceiling p) 2).
Proof.
  intros Htau Hf Hp. unfold progressive_dilate, int_true_div.
  destruct (Z.eqb_spec tau 0); [done|]. rewrite Hf. simpl in *. by rewrite Hp.
Qed.

(** Inside the window the rate of a finite base rate is computed. *)
Lemma progressive_dilate_in_window (b : Q) (tau i : Z) :
  round64 b = Ffinite b -> 0 < tau -> 0 <= i <= tau ->
  exists f p,
    round64 (inject_Z (tau - i) / inject_Z tau) = Ffinite f /\ (0 <= f)%Q /\ (f <= 1)%Q /\
    round64 (b * f) = Ffinite p /\
    ((0 <= b)%Q -> (0 <= p)%Q /\ (p <= b)%Q) /\ ((b <= 0)%Q -> (b <= p)%Q /\ (p <= 0)%Q) /\
    progressive_dilate (Ffinite b) tau i = inr (Z.max (Qceiling p) 2).
Proof.
  intros Hb Htau Hi.
  destruct (fraction_in_window tau i Htau Hi) as (f & Hf & _ & H0 & H1).
  destruct (product_in_window b f Hb H0 H1) as (p & Hp & Hpos & Hneg).
  exists f, p. repeat split; try done; try (by apply Hpos); try (by apply Hneg).
  apply (progressive_dilate_value b f p); [lia|done|done].
Qed.

Lemma ceiling_le_iff (x : Q) (n : Z) : Qceiling x <= n <-> (x <= inject_Z n)%Q.
Proof.
  split; intros H.
  - eapply Qle_trans; [apply Qle_ceiling|]. by rewrite <- Zle_Qle.
  - rewrite <- (Qceiling_Z n). by apply Qceiling_resp_le.
Qed.

Lemma progressive_dilate_monotone (b : Q) (tau i j ri rj : Z) :
  round64 b = Ffinite b -> 0 < tau -> 0 <= i -> i <= j -> j < tau ->
  progressive_dilate (Ffinite b) tau i = inr ri ->
  progressive_dilate (Ffinite b) tau j = inr rj ->
  rj <= ri.
Proof.
  intros Hb Htau Hi Hij Hj Hri Hrj.
  destruct (progressive_dilate_in_window b tau i Hb Htau ltac:(lia))
    as (fi & pi & Hfi & Hfi0 & Hfi1 & Hpi & Hpos_i & Hneg_i & Hvi).
  destruct (progressive_dilate_in_window b tau j Hb Htau ltac:(lia))
    as (fj & pj & Hfj & Hfj0 & Hfj1 & Hpj & Hpos_j & Hneg_j & Hvj).
  rewrite Hvi in Hri. rewrite Hvj in Hrj. inversion Hri. inversion Hrj. subst.
  destruct (Qlt_le_dec b 0) as [Hneg|Hpos].
  - assert (Qceiling pj <= 0).
    { apply ceiling_le_iff. change (inject_Z 0) with 0%Q.
      destruct Hneg_j as [_ ?]; lra. }
    lia.
  - apply Z.max_le_compat_r, Qceiling_resp_le.
    pose proof (round64_mono _ _ (fraction_decreasing tau i j Htau Hij)) as Hf.
    rewrite Hfi, Hfj in Hf. simpl in Hf.
    assert (Hm : (b * fj <= b * fi)%Q) by nra.
    apply round64_mono in Hm. rewrite Hpi, Hpj in Hm. exact Hm.
Qed.

(** The rounded reciprocal of [tau] exceeds it by at most one part in [2 ^ 53]. *)
Lemma reciprocal_error (tau : Z) (f : Q) :
  0 < tau -> tau <= 2 ^ 1022 ->
  round64 (inject_Z (tau - (tau - 1)) / inject_Z tau) = Ffinite f ->
  (f * inject_Z tau <= 1 + 2 ^ (-53))%Q.
Proof.
  intros Htau Hbig Hf. pose proof (tau_positive tau Htau) as Hq.
  replace (tau - (tau - 1)) with 1 in Hf by lia.
  set (x := (inject_Z 1 / inject_Z tau)%Q) in *.
  assert (Hx : (0 < x)%Q) by (apply Qlt_shift_div_l; [done|]; by rewrite Qmult_0_l).
  assert (Hxt : (x * inject_Z tau == 1)%Q) by (unfold x; field; lra).
  apply (round64_positive_value x f Hx) in Hf.
  destruct (round_value_error x Hx) as [_ Hup].
  destruct (ilog2_spec x Hx) as [Hlow Hup'].
  assert (Hnormal : -1022 <= ilog2 x).
  { assert (Hle : (2 ^ (-1022) <= x)%Q).
    { unfold x. apply Qle_shift_div_l; [done|].
      apply Qle_trans with (2 ^ (-1022) * inject_Z (2 ^ 1022))%Q.
      - apply Qmult_le_l; [apply two_pos|]. by rewrite <- Zle_Qle.
      - apply Qle_lteq. right. reflexivity. }
    assert (Hlt : (2 ^ (-1022) < 2 ^ (ilog2 x + 1))%Q) by lra.
    apply Qpower_lt_compat_l_inv in Hlt; [lia|reflexivity]. }
  assert (Hhalf : (ulp x / 2 <= x * 2 ^ (-53))%Q).
  { unfold ulp, exponent. rewrite Z.max_l by lia.
    apply Qle_trans with (2 ^ ilog2 x * 2 ^ (-53))%Q.
    - apply Qle_lteq. right.
      replace (ilog2 x - 52) with (ilog2 x + (-53) + 1) by lia.
      rewrite !two_power_plus. change (2 ^ 1)%Q with 2%Q. field.
    - apply Qmult_le_compat_r; [done|apply Qlt_le_weak, two_pos]. }
  rewrite Hf.
  apply Qle_trans with ((x + x * 2 ^ (-53)) * inject_Z tau)%Q.
  - apply Qmult_le_compat_r; lra.
  - apply Qle_lteq. right. rewrite Qmult_plus_distr_l.
    rewrite <- (Qmult_assoc x), (Qmult_comm (2 ^ (-53))), Qmult_assoc, Hxt. ring.
Qed.

(** ** The progressive schedule *)

(** C4, as the code has it.  For a progressive schedule with [tau > 0] and a
    finite base rate the rate is computed at every step of [0, tau), it never
    increases with the step index there, and at the last step [tau - 1] it is
    2 whenever [base_rate <= 2 * tau] (for [tau] up to [2 ^ 1022], where the
    reciprocal of [tau] is a normal number). *)
Theorem progressive_schedule_decay (b : Q) (tau : Z) :
  round64 b = Ffinite b ->
  0 < tau ->
  (forall i, 0 <= i < tau ->
     exists r, progressive_dilate (Ffinite b) tau i = inr r /\
               progressive_rate (Ffinite b) tau i = inr (PyInt r)) /\
  (forall i j ri rj, 0 <= i -> i <= j -> j < tau ->
     progressive_dilate (Ffinite b) tau i = inr ri ->
     progressive_dilate (Ffinite b) tau j = inr rj ->
     rj <= ri) /\
  (tau <= 2 ^ 1022 -> (b <= inject_Z (2 * tau))%Q ->
   progressive_dilate (Ffinite b) tau (tau - 1) = inr 2).
Proof.
  intros Hb Htau. split; [|split].
  - intros i Hi.
    destruct (progressive_dilate_in_window b tau i Hb Htau ltac:(lia))
      as (f & p & _ & _ & _ & _ & _ & _ & Hv).
    exists (Z.max (Qceiling p) 2). split; [done|]. unfold progressive_rate. by rewrite Hv.
  - intros i j ri rj. by apply progressive_dilate_monotone.
  - intros Hbig Hle.
    destruct (progressive_dilate_in_window b tau (tau - 1) Hb Htau ltac:(lia))
      as (f & p & Hf & Hf0 & Hf1 & Hp & Hpos & Hneg & Hv).
    rewrite Hv. f_equal.
    assert (Hc : Qceiling p <= 2); [|lia].
    apply ceiling_le_iff. destruct (Qlt_le_dec b 0) as [Hn|Hpos'].
    + destruct Hneg as [_ ?]; [lra|]. change (inject_Z 2) with 2%Q. lra.
    + pose proof (reciprocal_error tau f Htau Hbig Hf) as Herr.
      pose proof (tau_positive tau Htau) as Hq.
      assert (Hbf : (b * f <= 2 + 2 ^ (-52))%Q).
      { apply Qle_trans with (inject_Z (2 * tau) * f)%Q.
        - apply Qmult_le_compat_r; done.
        - rewrite inject_Z_mult.
          apply Qle_trans with (inject_Z 2 * (1 + 2 ^ (-53)))%Q.
          + rewrite <- Qmult_assoc, (Qmult_comm (inject_Z tau)).
            apply Qmult_le_l; [reflexivity|done].
          + apply Qle_lteq. right. vm_compute. reflexivity. }
      apply round64_mono in Hbf. rewrite Hp in Hbf.
      assert (Htwo : round64 (2 + 2 ^ (-52)) = Ffinite 2) by (vm_compute; reflexivity).
      rewrite Htwo in Hbf. exact Hbf.
Qed.

Lemma progressive_schedule_decay_witness :
  (exists r0 r9, progressive_dilate (Ffinite 4) 10 0 = inr r0 /\
                 progressive_dilate (Ffinite 4) 10 9 = inr r9 /\ r9 <= r0) /\
  progressive_dilate (Ffinite 4) 10 (10 - 1) = inr 2.
Proof.
  destruct (progressive_schedule_decay 4 10 ltac:(vm_compute; reflexivity) ltac:(lia))
    as (Hdef & Hmono & Hlast).
  split.
  - destruct (Hdef 0 ltac:(lia)) as (r0 & H0 & _), (Hdef 9 ltac:(lia)) as (r9 & H9 & _).
    exists r0, r9. split; [exact H0|]. split; [exact H9|].
    apply (Hmono 0 9 r0 r9); (lia || assumption).
  - apply Hlast; [lia|]. vm_compute. discriminate.
Defined.

(** C4 as stated fails: with [tau = 1] and base rate 4 the rate at the last
    step [tau - 1 = 0] is 4. *)
Lemma progressive_last_step_not_two :
  progressive_dilate (Ffinite 4) 1 (1 - 1) = inr 4 /\
  progressive_dilate (Ffinite 4) 1 (1 - 1) <> inr 2.
Proof. split; [vm_compute; reflexivity|vm_compute; discriminate]. Qed.

(** ** The two loops *)

Lemma patch_modules_inr {T} (cfg : Config T) settings tau i mods b mods' b' :
  patch_modules cfg settings tau i mods b = (inr tt, mods', b') ->
  mods' = patched_entry cfg settings tau i <$> mods /\ b' = recorded settings mods b.
Proof.
  revert b mods' b'. induction mods as [|[name fwd] rest IH]; intros b mods' b' Hp.
  - simpl in Hp. by inversion Hp.
  - simpl in Hp. destruct settings as [ds|]; [|discriminate].
    unfold patched_entry, recorded, base_rate. simpl.
    destruct (ds !! name) as [base|] eqn:Hds.
    + destruct (layer_dilate cfg tau i name base) as [e|dilate] eqn:Hd; [discriminate|].
      destruct (patch_modules cfg (Some ds) tau i rest (<[name:=fwd]> b))
        as [[r rest'] b1] eqn:Hrest.
      inversion Hp; subst. destruct (IH _ _ _ Hrest) as [-> ->]. done.
    + destruct (patch_modules cfg (Some ds) tau i rest b) as [[r rest'] b1] eqn:Hrest.
      inversion Hp; subst. destruct (IH _ _ _ Hrest) as [-> ->]. done.
Qed.

Lemma patch_modules_defined {T} (cfg : Config T) ds tau i mods b :
  rates_defined cfg (Some ds) tau i mods ->
  patch_modules cfg (Some ds) tau i mods b
  = (inr tt, patched_entry cfg (Some ds) tau i <$> mods, recorded (Some ds) mods b).
Proof.
  intros Hdef. revert b. induction Hdef as [|[name fwd] rest Hhead _ IH]; intros b; [done|].
  simpl. unfold patched_entry at 1, recorded, base_rate. simpl.
  destruct (ds !! name) as [base|] eqn:Hds.
  - destruct (Hhead base) as [dilate Hd]; [unfold base_rate; by simpl|]. simpl in Hd.
    rewrite Hd, IH. done.
  - rewrite IH. done.
Qed.

(** A first loop that ran to its end computed a rate for every module it had
    to handle. *)
Lemma patch_modules_inr_defined {T} (cfg : Config T) settings tau i mods b mods' b' :
  patch_modules cfg settings tau i mods b = (inr tt, mods', b') ->
  rates_defined cfg settings tau i mods.
Proof.
  revert b mods' b'. induction mods as [|[name fwd] rest IH]; intros b mods' b' Hp;
    [constructor|].
  simpl in Hp. destruct settings as [ds|]; [|discriminate].
  destruct (ds !! name) as [base|] eqn:Hds.
  - destruct (layer_dilate cfg tau i name base) as [e|dilate] eqn:Hd; [discriminate|].
    destruct (patch_modules cfg (Some ds) tau i rest (<[name:=fwd]> b))
      as [[r rest'] b1] eqn:Hrest.
    inversion Hp; subst. constructor; [|by eapply IH].
    intros base' Hbase. unfold base_rate in Hbase. simpl in Hbase.
    rewrite Hds in Hbase. inversion Hbase; subst. eauto.
  - destruct (patch_modules cfg (Some ds) tau i rest b) as [[r rest'] b1] eqn:Hrest.
    inversion Hp; subst. constructor; [|by eapply IH].
    intros base' Hbase. unfold base_rate in Hbase. simpl in Hbase. congruence.
Qed.

(** Whatever way the first loop ends, a module whose name has no entry in the
    settings keeps its [forward]. *)
Lemma patch_modules_unconfigured {T} (cfg : Config T) settings tau i mods b k m :
  mods !! k = Some m ->
  base_rate settings m.1 = None ->
  (patch_modules cfg settings tau i mods b).1.2 !! k = Some m.
Proof.
  revert b k. induction mods as [|[name fwd] rest IH]; intros b k Hk Hnone; [done|].
  simpl. destruct settings as [ds|]; [|done].
  destruct k as [|k]; simpl in Hk.
  - inversion Hk; subst. unfold base_rate in Hnone. simpl in Hnone. rewrite Hnone.
    by destruct (patch_modules cfg (Some ds) tau i rest b) as [[r rest'] b1].
  - destruct (ds !! name) as [base|].
    + destruct (layer_dilate cfg tau i name base) as [e|dilate]; [done|].
      specialize (IH (<[name:=fwd]> b) k Hk Hnone).
      by destruct (patch_modules cfg (Some ds) tau i rest (<[name:=fwd]> b)) as [[r rest'] b1].
    + specialize (IH b k Hk Hnone).
      by destruct (patch_modules cfg (Some ds) tau i rest b) as [[r rest'] b1].
Qed.

Lemma recorded_cons settings m rest b :
  recorded settings (m :: rest) b
  = recorded settings rest
      (match base_rate settings m.1 with Some _ => <[m.1 := m.2]> b | None => b end).
Proof. reflexivity. Qed.

Lemma recorded_absent settings mods b name :
  name ∉ module_names mods ->
  recorded settings mods b !! name = b !! name.
Proof.
  revert b. induction mods as [|[n f] rest IH]; intros b Hnot; [done|].
  unfold module_names in *. rewrite fmap_cons in Hnot. apply not_elem_of_cons in Hnot as [Hne Hrest].
  rewrite recorded_cons. simpl.
  destruct (base_rate settings n).
  - rewrite (IH _ Hrest). by rewrite lookup_insert_ne.
  - by apply IH.
Qed.

Lemma recorded_unconfigured settings mods b name :
  base_rate settings name = None ->
  recorded settings mods b !! name = b !! name.
Proof.
  intros Hnone. revert b. induction mods as [|[n f] rest IH]; intros b; [done|].
  rewrite recorded_cons. simpl.
  destruct (base_rate settings n) eqn:Hn.
  - rewrite IH. apply lookup_insert_ne. intros ->. congruence.
  - apply IH.
Qed.

Lemma recorded_original settings mods b name fwd base :
  NoDup (module_names mods) ->
  (name, fwd) ∈ mods ->
  base_rate settings name = Some base ->
  recorded settings mods b !! name = Some fwd.
Proof.
  intros Hnd Hin Hbase. revert b.
  induction mods as [|[n f] rest IH]; intros b; [by apply elem_of_nil in Hin|].
  unfold module_names in Hnd. rewrite fmap_cons in Hnd. apply NoDup_cons in Hnd as [Hfresh Hnd].
  rewrite recorded_cons. simpl.
  apply elem_of_cons in Hin as [Heq|Hin].
  - inversion Heq; subst. rewrite Hbase.
    rewrite recorded_absent by done. apply lookup_insert_eq.
  - by apply IH.
Qed.

Lemma patched_entry_name {T} (cfg : Config T) settings tau i m :
  (patched_entry cfg settings tau i m).1 = m.1.
Proof.
  unfold patched_entry. destruct (base_rate settings m.1); [|done].
  by destruct (layer_dilate cfg tau i m.1 f).
Qed.

(** The second loop undoes the first on a network whose module names are distinct. *)
Lemma restore_patched {T} (cfg : Config T) settings tau i mods :
  NoDup (module_names mods) ->
  restore_modules (recorded settings mods ∅) (patched_entry cfg settings tau i <$> mods) = mods.
Proof.
  intros Hnd. unfold restore_modules. rewrite <- list_fmap_compose.
  rewrite <- (list_fmap_id mods) at 2. apply list_fmap_ext.
  intros k [name fwd] Hk. simpl. rewrite patched_entry_name. simpl.
  destruct (base_rate settings name) as [base|] eqn:Hbase.
  - erewrite recorded_original; eauto. eapply list_elem_of_lookup_2; eauto.
  - rewrite recorded_unconfigured by done. rewrite lookup_empty.
    unfold patched_entry. simpl. by rewrite Hbase.
Qed.

(** ** Network objects in the state *)

Section State.
Context `{Ext : Externals}.

Lemma with_modules_same (net : Network weights_t) :
  with_modules net (named_modules net) = net.
Proof. by destruct net. Qed.

Lemma with_modules_twice (net : Network weights_t) a b :
  with_modules (with_modules net a) b = with_modules net b.
Proof. done. Qed.

Lemma get_set_net id net (s : Machine) : get_net id (set_net id net s) = Some net.
Proof. by destruct id. Qed.

Lemma get_set_net_ne id id' net (s : Machine) :
  id' <> id -> get_net id' (set_net id net s) = get_net id' s.
Proof. by destruct id, id'. Qed.

Lemma set_net_same id net (s : Machine) : get_net id s = Some net -> set_net id net s = s.
Proof. destruct s, id; simpl; intros Hg; by inversion Hg. Qed.

Lemma set_net_twice id n1 n2 (s : Machine) : set_net id n2 (set_net id n1 s) = set_net id n2 s.
Proof. by destruct id. Qed.

Lemma distinct_names_get id net (s : Machine) :
  distinct_names s -> get_net id s = Some net -> NoDup (module_names (named_modules net)).
Proof.
  intros (Hu & Hi & Hv) Hg. destruct id; simpl in Hg; [by inversion Hg; subst|by apply Hi|by apply Hv].
Qed.

(** [run_branch] spelled out on the network object its target refers to. *)
Lemma run_branch_unfold cfg settings tau i target x t emb (s : Machine) net :
  get_net target s = Some net ->
  run_branch cfg settings tau i target x t emb s =
    let '(r, mods', b) := patch_modules cfg settings tau i (named_modules net) ∅ in
    let s1 := set_net target (with_modules net mods') s in
    match r with
    | inl e => (inl e, s1)
    | inr _ =>
      match unet_call (with_modules net mods') x t emb with
      | inl e => (inl e, s1)
      | inr noise => (inr noise, set_net target (with_modules net (restore_modules b mods')) s)
      end
    end.
Proof.
  intros Hg. unfold run_branch, bind, patch_phase, invoke_phase, restore_phase, ret. rewrite Hg.
  destruct (patch_modules cfg settings tau i (named_modules net) ∅) as [[r mods'] b].
  destruct r as [e|[]]; simpl; [done|].
  rewrite get_set_net.
  destruct (unet_call (with_modules net mods') x t emb) as [e|noise]; [done|].
  by rewrite get_set_net, set_net_twice.
Qed.

Lemma run_branch_no_network cfg settings tau i target x t emb (s : Machine) :
  get_net target s = None ->
  run_branch cfg settings tau i target x t emb s = (inl AttributeError, s).
Proof. intros Hg. unfold run_branch, bind, patch_phase. by rewrite Hg. Qed.

(** A branch that returns has called the network with the replaced
    [forward]s in place and has put every [forward] back. *)
Lemma run_branch_returns cfg settings tau i target x t emb (s s' : Machine) noise :
  distinct_names s ->
  run_branch cfg settings tau i target x t emb s = (inr noise, s') ->
  s' = s /\
  exists net, get_net target s = Some net /\
    patch_modules cfg settings tau i (named_modules net) ∅
    = (inr tt, patched_entry cfg settings tau i <$> named_modules net,
       recorded settings (named_modules net) ∅) /\
    unet_call (with_modules net (patched_entry cfg settings tau i <$> named_modules net)) x t emb
    = inr noise.
Proof.
  intros Hwf Hrun. destruct (get_net target s) as [net|] eqn:Hg.
  2:{ rewrite run_branch_no_network in Hrun by done. discriminate. }
  rewrite (run_branch_unfold _ _ _ _ _ _ _ _ _ _ Hg) in Hrun.
  destruct (patch_modules cfg settings tau i (named_modules net) ∅) as [[r mods'] b] eqn:Hp.
  destruct r as [e|[]]; [discriminate|].
  destruct (patch_modules_inr _ _ _ _ _ _ _ _ Hp) as [-> ->].
  destruct (unet_call _ x t emb) as [e|noise'] eqn:Hcall; [discriminate|].
  inversion Hrun; subst. split.
  - rewrite restore_patched by (eapply distinct_names_get; eauto).
    rewrite with_modules_same. by apply set_net_same.
  - exists net. done.
Qed.

End State.


(** ** The rate a configured layer gets *)

Lemma patched_entry_lookup {T} (cfg : Config T) settings tau i
    (mods : list (string * forward_fn)) (k : nat) name fwd base dilate :
  mods !! k = Some (name, fwd) ->
  base_rate settings name = Some base ->
  layer_dilate cfg tau i name base = inr dilate ->
  (patched_entry cfg settings tau i <$> mods) !! k
  = Some (name, ReDilateConvProcessor name dilate "bilinear" (i <? tau)).
Proof.
  intros Hk Hbase Hd. rewrite list_lookup_fmap, Hk. simpl.
  unfold patched_entry. simpl. by rewrite Hbase, Hd.
Qed.

Lemma progressive_rate_in_window (base : float64) (tau i : Z) :
  finite_float base -> 0 < tau -> 0 <= i <= tau ->
  exists p, rounded_product base tau i = Ffinite p /\
    progressive_rate base tau i = inr (PyInt (Z.max (Qceiling p) 2)) /\
    (p < 2 ^ 1024)%Q.
Proof.
  intros (b & -> & Hb) Htau Hi.
  destruct (progressive_dilate_in_window b tau i Hb Htau Hi)
    as (f & p & Hf & _ & _ & Hp & _ & _ & Hv).
  exists p. unfold rounded_product, progressive_rate. rewrite Hf, Hv. simpl.
  split; [done|]. split; [done|]. by destruct (round64_finite_bound _ _ Hp).
Qed.

Lemma true_div_2_int (z : Z) :
  0 <= z <= 2 ^ 1024 -> true_div_2 (PyInt z) = inr (halved (PyInt z)).
Proof.
  intros Hz. unfold true_div_2, halved, int_true_div. simpl.
  assert (Hlo : (0 <= inject_Z z / inject_Z 2)%Q).
  { apply Qle_shift_div_l; [reflexivity|]. rewrite Qmult_0_l.
    change 0%Q with (inject_Z 0). rewrite <- Zle_Qle. lia. }
  assert (Hhi : (inject_Z z / inject_Z 2 <= inject_Z (2 ^ 1023))%Q).
  { apply Qle_shift_div_r; [reflexivity|]. rewrite <- inject_Z_mult, <- Zle_Qle. lia. }
  apply round64_mono in Hlo, Hhi.
  assert (Hbig : round64 (inject_Z (2 ^ 1023)) = Ffinite (inject_Z (2 ^ 1023)))
    by (vm_compute; reflexivity).
  rewrite Hbig in Hhi. change (round64 0) with (Ffinite 0) in Hlo.
  destruct (f64_between _ _ _ Hlo Hhi) as (v & Hv & _).
  change (inject_Z z / 2)%Q with (inject_Z z / inject_Z 2)%Q. by rewrite Hv.
Qed.

(** The rate of a layer at a step where nothing raises: the base rate or the
    integer of line 203, divided by 2 for a listed layer in the inflate
    window. *)
Lemma layer_dilate_in_window {T} (cfg : Config T) l tau i name base :
  (progressive cfg = true -> finite_float base /\ 0 < tau /\ 0 <= i <= tau) ->
  (i < inflate_tau cfg -> inflate_settings cfg = Some l) ->
  exists rate,
    (if progressive cfg
     then exists p, rounded_product base tau i = Ffinite p /\
                    rate = PyInt (Z.max (Qceiling p) 2)
     else rate = PyFloat base) /\
    layer_dilate cfg tau i name base
    = inr (if bool_decide (i < inflate_tau cfg /\ name ∈ l)
           then PyFloat (halved rate) else rate).
Proof.
  intros Hprog Hinf. unfold layer_dilate.
  assert (Hrate : exists rate,
    (if progressive cfg
     then exists p, rounded_product base tau i = Ffinite p /\
                    rate = PyInt (Z.max (Qceiling p) 2)
     else rate = PyFloat base) /\
    (if progressive cfg then progressive_rate base tau i else inr (PyFloat base)) = inr rate /\
    true_div_2 rate = inr (halved rate)).
  { destruct (progressive cfg).
    - destruct (Hprog eq_refl) as (Hfin & Htau & Hi).
      destruct (progressive_rate_in_window base tau i Hfin Htau Hi) as (p & Hp & Hr & Hb).
      exists (PyInt (Z.max (Qceiling p) 2)). split; [eauto|]. split; [done|].
      apply true_div_2_int. split; [lia|].
      assert (Qceiling p <= 2 ^ 1024); [|lia].
      apply ceiling_le_iff. rewrite two_power_Z by lia. lra.
    - exists (PyFloat base). done. }
  destruct Hrate as (rate & Hshape & -> & Hhalf). exists rate. split; [done|].
  simpl. unfold inflate_halving.
  destruct (Z.ltb_spec i (inflate_tau cfg)) as [Hlt|Hge].
  - rewrite (Hinf Hlt). destruct (decide (name ∈ l)) as [Hin|Hnin].
    + rewrite !bool_decide_eq_true_2 by done. by rewrite Hhalf.
    + rewrite !bool_decide_eq_false_2; [done| |done]. by intros [_ ?].
  - rewrite bool_decide_eq_false_2; [done|]. intros [? _]. lia.
Qed.

(** C5, as the code has it.  At a step [0 <= i < dilate_tau], with
    [inflate_settings] a list when [i < inflate_tau] and, under
    [progressive], finite base rates, the replacing loop runs to its end and
    every module named in the dilation settings gets an active
    [ReDilateConvProcessor].  Its rate is the base rate when [progressive] is
    off, and [max(ceil(p), 2)] when it is on, where [p] is the binary64
    product of line 203 (the quotient [(dilate_tau - i) / dilate_tau] rounded,
    then the product with the base rate rounded); for a listed layer with
    [i < inflate_tau] that rate is divided by 2. *)
Theorem dilation_rate_applied {T} (cfg : Config T) ds l i
    (mods : list (string * forward_fn)) b (k : nat) name fwd base :
  dilate_settings cfg = Some ds ->
  (i < inflate_tau cfg -> inflate_settings cfg = Some l) ->
  (progressive cfg = true -> map_Forall (fun _ rate => finite_float rate) ds) ->
  0 <= i < dilate_tau cfg ->
  mods !! k = Some (name, fwd) ->
  ds !! name = Some base ->
  let patched := patch_modules cfg (dilate_settings cfg) (dilate_tau cfg) i mods b in
  patched.1.1 = inr tt /\
  exists rate,
    (if progressive cfg
     then exists p, rounded_product base (dilate_tau cfg) i = Ffinite p /\
                    rate = PyInt (Z.max (Qceiling p) 2)
     else rate = PyFloat base) /\
    patched.1.2 !! k
    = Some (name, ReDilateConvProcessor name
                    (if bool_decide (i < inflate_tau cfg /\ name ∈ l)
                     then PyFloat (halved rate) else rate)
                    "bilinear" true).
Proof.
  intros Hds Hinf Hfin Hi Hk Hbase patched. subst patched. rewrite Hds.
  assert (Hlayer : forall n base', ds !! n = Some base' ->
            progressive cfg = true ->
            finite_float base' /\ 0 < dilate_tau cfg /\ 0 <= i <= dilate_tau cfg).
  { intros n base' Hn Hp. split; [by eapply (Hfin Hp)|lia]. }
  assert (Hdef : rates_defined cfg (Some ds) (dilate_tau cfg) i mods).
  { apply Forall_forall. intros [n f] _ base' Hn. unfold base_rate in Hn. simpl in *.
    destruct (layer_dilate_in_window cfg l (dilate_tau cfg) i n base' (Hlayer n base' Hn) Hinf)
      as (rate & _ & ->). eauto. }
  rewrite patch_modules_defined by done. simpl. split; [done|].
  destruct (layer_dilate_in_window cfg l (dilate_tau cfg) i name base
              (Hlayer name base Hbase) Hinf) as (rate & Hshape & Hd).
  exists rate. split; [done|].
  erewrite patched_entry_lookup; [|done|done|done].
  do 3 f_equal. apply Z.ltb_lt. lia.
Qed.

Lemma dilation_rate_applied_witness :
  exists rate,
    (exists p, rounded_product (Ffinite 4) 2 0 = Ffinite p /\ rate = PyInt (Z.max (Qceiling p) 2)) /\
    (patch_modules (Toy.cfg None true) (dilate_settings (Toy.cfg None true)) 2 0
       (named_modules Toy.base_unet) ∅).1.2 !! 0%nat
    = Some ("conv", ReDilateConvProcessor "conv" (PyFloat (halved rate)) "bilinear" true).
Proof.
  destruct (dilation_rate_applied (Toy.cfg None true) {[ "conv" := Ffinite 4 ]} ["conv"] 0
              (named_modules Toy.base_unet) ∅ 0%nat "conv" BoundForward (Ffinite 4)
              eq_refl (fun _ => eq_refl))
    as (_ & rate & Hshape & Hk).
  - intros _. apply map_Forall_singleton. exists 4%Q. split; [reflexivity|].
    vm_compute. reflexivity.
  - simpl. lia.
  - reflexivity.
  - vm_compute. reflexivity.
  - exists rate. split; [exact Hshape|exact Hk].
Defined.

(** C5 as stated fails: with base rate 25.0, [dilate_tau = 25] and [i = 11]
    the quotient 14 / 25 rounds up, the product is just above 14 and the
    layer gets the rate 15, where the formula of the claim gives 14. *)
Lemma rounding_raises_the_rate :
  (patch_modules Toy.cfg_rounding (dilate_settings Toy.cfg_rounding)
     (dilate_tau Toy.cfg_rounding) 11 (named_modules Toy.base_unet) ∅).1.2 !! 0%nat
  = Some ("conv", ReDilateConvProcessor "conv" (PyInt 15) "bilinear" true) /\
  exact_progressive_rate 25 25 11 = 14.
Proof. split; vm_compute; reflexivity. Qed.

(** C6, as the code has it.  Whatever way the first loop ends, a module whose
    name is not in the settings keeps its [forward], at every step.  At a step
    [i >= tau] at which the loop runs to its end, the [forward] of every
    configured module has been replaced, by a [ReDilateConvProcessor] that
    carries the computed rate and [activate = False]. *)
Theorem forward_replaced_for_configured_layers {T} (cfg : Config T) settings tau i
    (mods : list (string * forward_fn)) b (k : nat) :
  (forall m, mods !! k = Some m -> base_rate settings m.1 = None ->
     (patch_modules cfg settings tau i mods b).1.2 !! k = Some m) /\
  (forall name fwd base,
     tau <= i ->
     (patch_modules cfg settings tau i mods b).1.1 = inr tt ->
     mods !! k = Some (name, fwd) -> base_rate settings name = Some base ->
     exists dilate, layer_dilate cfg tau i name base = inr dilate /\
       (patch_modules cfg settings tau i mods b).1.2 !! k
       = Some (name, ReDilateConvProcessor name dilate "bilinear" false)).
Proof.
  split.
  - intros m Hk Hnone. by apply patch_modules_unconfigured.
  - intros name fwd base Hi Hend Hk Hbase.
    destruct (patch_modules cfg settings tau i mods b) as [[r mods'] b'] eqn:Hp.
    simpl in Hend. subst r. simpl.
    pose proof (patch_modules_inr_defined _ _ _ _ _ _ _ _ Hp) as Hdef.
    destruct (patch_modules_inr _ _ _ _ _ _ _ _ Hp) as [-> _].
    unfold rates_defined in Hdef. rewrite Forall_lookup in Hdef.
    destruct (Hdef k (name, fwd) Hk base Hbase) as [dilate Hd].
    exists dilate. split; [done|].
    erewrite patched_entry_lookup by done.
    do 3 f_equal. apply Z.ltb_ge. lia.
Qed.

Lemma forward_replaced_for_configured_layers_witness :
  (patch_modules (Toy.cfg None false) (Some {[ "conv" := Ffinite 4 ]}) 2 2
     (named_modules Toy.base_unet) ∅).1.2 !! 1%nat = Some ("norm", BoundForward) /\
  exists dilate,
    (patch_modules (Toy.cfg None false) (Some {[ "conv" := Ffinite 4 ]}) 2 2
       (named_modules Toy.base_unet) ∅).1.2 !! 0%nat
    = Some ("conv", ReDilateConvProcessor "conv" dilate "bilinear" false).
Proof.
  split.
  - apply (proj1 (forward_replaced_for_configured_layers (Toy.cfg None false)
                    (Some {[ "conv" := Ffinite 4 ]}) 2 2 (named_modules Toy.base_unet) ∅ 1%nat)
             ("norm", BoundForward)); vm_compute; reflexivity.
  - destruct (proj2 (forward_replaced_for_configured_layers (Toy.cfg None false)
                    (Some {[ "conv" := Ffinite 4 ]}) 2 2 (named_modules Toy.base_unet) ∅ 0%nat)
                "conv" BoundForward (Ffinite 4))
      as (dilate & _ & Hk).
    + lia.
    + vm_compute. reflexivity.
    + reflexivity.
    + vm_compute. reflexivity.
    + exists dilate. exact Hk.
Defined.

(** C6 as stated fails: at step 2 with [dilate_tau = 2] the [forward] of the
    configured layer is not what it was before the loop. *)
Lemma inactive_step_still_replaces_forward :
  (patch_modules (Toy.cfg None false) (dilate_settings (Toy.cfg None false))
     (dilate_tau (Toy.cfg None false)) 2 (named_modules Toy.base_unet) ∅).1.2
  <> named_modules Toy.base_unet.
Proof. vm_compute. discriminate. Qed.

(** ** One invocation and its two loops *)

Section Branches.
Context `{Ext : Externals}.


Lemma run_branch_scoped cfg settings tau i target x t emb (s s' : Machine) noise :
  distinct_names s ->
  run_branch cfg settings tau i target x t emb s = (inr noise, s') ->
  branch_scoped cfg settings tau i target s.
Proof.
  intros Hwf Hrun.
  destruct (run_branch_returns _ _ _ _ _ _ _ _ _ _ _ Hwf Hrun) as (_ & net & Hg & Hp & _).
  exists (recorded settings (named_modules net) ∅),
    (set_net target (with_modules net (patched_entry cfg settings tau i <$> named_modules net)) s).
  split; [|split].
  - unfold patch_phase. by rewrite Hg, Hp.
  - intros id Hne. by apply get_set_net_ne.
  - unfold restore_phase. rewrite get_set_net, set_net_twice, with_modules_twice. simpl.
    rewrite restore_patched by (eapply distinct_names_get; eauto).
    by rewrite with_modules_same, set_net_same.
Qed.

(** C1, as the code has it.  After a first loop that ran to its end: if the
    network call raises, the exception leaves [run_branch] at once and the
    invoked network object keeps every replaced [forward] (the second loop is
    not run); if the call returns, the second loop puts every [forward] back.
    This holds for either invocation of a step (any [target], [settings] and
    [tau]) and any step [i]. *)
Theorem restoration_only_after_normal_return cfg settings tau i target x t emb
    (s : Machine) net mods' b :
  get_net target s = Some net ->
  NoDup (module_names (named_modules net)) ->
  patch_modules cfg settings tau i (named_modules net) ∅ = (inr tt, mods', b) ->
  (forall e, unet_call (with_modules net mods') x t emb = inl e ->
     run_branch cfg settings tau i target x t emb s
     = (inl e, set_net target (with_modules net mods') s)) /\
  (forall noise, unet_call (with_modules net mods') x t emb = inr noise ->
     run_branch cfg settings tau i target x t emb s = (inr noise, s)).
Proof.
  intros Hg Hnd Hp. rewrite (run_branch_unfold _ _ _ _ _ x t emb _ _ Hg), Hp.
  split.
  - intros e He. by rewrite He.
  - intros noise Hn. rewrite Hn.
    destruct (patch_modules_inr _ _ _ _ _ _ _ _ Hp) as [-> ->].
    rewrite restore_patched by done.
    rewrite with_modules_same. by rewrite (set_net_same _ _ _ Hg).
Qed.

End Branches.

Lemma restoration_only_after_normal_return_witness :
  run_branch (Toy.cfg None false) (Some {[ "conv" := Ffinite 4 ]}) 2 0 SelfUnet [1%Q] (-1) tt Toy.machine
  = (inl (ExternalError "negative timestep"),
     mkMachine
       (mkNetwork 0 [("conv", ReDilateConvProcessor "conv" (PyFloat (Ffinite 2)) "bilinear" true);
                     ("norm", BoundForward)]) None None 0) /\
  run_branch (Toy.cfg None false) (Some {[ "conv" := Ffinite 4 ]}) 2 0 SelfUnet [1%Q] 5 tt Toy.machine
  = (inr [4%Q], Toy.machine).
Proof.
  split.
  - refine (proj1 (restoration_only_after_normal_return (Toy.cfg None false)
              (Some {[ "conv" := Ffinite 4 ]}) 2 0 SelfUnet [1%Q] (-1) tt Toy.machine Toy.base_unet
              [("conv", ReDilateConvProcessor "conv" (PyFloat (Ffinite 2)) "bilinear" true);
               ("norm", BoundForward)]
              {[ "conv" := BoundForward ]} eq_refl _ _) _ _).
    + apply (bool_decide_unpack _). vm_compute. reflexivity.
    + vm_compute. reflexivity.
    + vm_compute. reflexivity.
  - refine (proj2 (restoration_only_after_normal_return (Toy.cfg None false)
              (Some {[ "conv" := Ffinite 4 ]}) 2 0 SelfUnet [1%Q] 5 tt Toy.machine Toy.base_unet
              [("conv", ReDilateConvProcessor "conv" (PyFloat (Ffinite 2)) "bilinear" true);
               ("norm", BoundForward)]
              {[ "conv" := BoundForward ]} eq_refl _ _) _ _).
    + apply (bool_decide_unpack _). vm_compute. reflexivity.
    + vm_compute. reflexivity.
    + vm_compute. reflexivity.
Defined.

(** C1 as stated fails: the toy network raises on a negative timestep, the
    exception leaves the step, and [self.unet] is left with the replaced
    [forward] of ["conv"]. *)
Lemma raising_network_leaves_forward_replaced :
  exists e s',
    denoise_step (Toy.cfg None false) (15 # 2) 0 tt 0 (-1) [1%Q] Toy.machine = (inl e, s') /\
    named_modules (self_unet s') <> named_modules (self_unet Toy.machine).
Proof.
  eexists _, _. split.
  - vm_compute. reflexivity.
  - vm_compute. discriminate.
Qed.

(** ** One iteration *)

Section Step.
Context `{Ext : Externals}.

Lemma guidance_enabled (gs : Q) : (1 < gs)%Q -> do_classifier_free_guidance gs = true.
Proof.
  intros Hgs. unfold do_classifier_free_guidance.
  destruct (Qle_bool gs 1) eqn:Hle; [|done].
  apply Qle_bool_iff in Hle. by destruct (Qlt_not_le _ _ Hgs).
Qed.

Lemma guidance_disabled (gs : Q) : (gs <= 1)%Q -> do_classifier_free_guidance gs = false.
Proof.
  intros Hgs. unfold do_classifier_free_guidance.
  apply Qle_bool_iff in Hgs. by rewrite Hgs.
Qed.

(** The two invocations behind a pair of predictions. *)
Lemma predict_branches_inr cfg gs emb i t latents (s s' : Machine) preds :
  predict_branches cfg gs emb i t latents s = (inr preds, s') ->
  exists s_mid,
    run_branch cfg (dilate_settings cfg) (dilate_tau cfg) i (select_unet cfg i)
      (latent_model_input gs t latents) t emb s = (inr preds.1, s_mid) /\
    (i < ndcfg_tau cfg ->
       exists v, preds.2 = Some v /\
         run_branch cfg (ndcfg_dilate_settings cfg) (ndcfg_tau cfg) i (select_unet_vanilla cfg i)
           (latent_model_input gs t latents) t emb s_mid = (inr v, s')) /\
    (ndcfg_tau cfg <= i -> preds.2 = None /\ s' = s_mid).
Proof.
  unfold predict_branches, bind, ret. intros Hp.
  destruct (run_branch cfg (dilate_settings cfg) _ i (select_unet cfg i) _ t emb s)
    as [[e|noise] s_mid] eqn:Ha; [discriminate|].
  exists s_mid. destruct (Z.ltb_spec i (ndcfg_tau cfg)) as [Hlt|Hge].
  - destruct (run_branch cfg (ndcfg_dilate_settings cfg) _ i _ _ t emb s_mid)
      as [[e|v] s2] eqn:Hv; [discriminate|].
    inversion Hp; subst. simpl. split; [done|]. split; [|lia]. intros _. by exists v.
  - inversion Hp; subst. simpl. split; [done|]. split; [lia|done].
Qed.

Lemma advance_networks noise t latents (s s' : Machine) latents' :
  advance noise t latents s = (inr latents', s') -> same_networks s s'.
Proof.
  unfold advance. destruct (scheduler_step noise t latents (rng s)) as [l g].
  intros Ha. inversion Ha; subst. by repeat split.
Qed.

Lemma same_networks_distinct (s s' : Machine) :
  same_networks s s' -> distinct_names s -> distinct_names s'.
Proof. intros (Hu & Hi & Hv) Hd. unfold distinct_names. by rewrite <- Hu, <- Hi, <- Hv. Qed.

Lemma predict_noise_inr cfg gs gr emb i t latents (s s' : Machine) noise :
  predict_noise cfg gs gr emb i t latents s = (inr noise, s') ->
  exists preds, predict_branches cfg gs emb i t latents s = (inr preds, s').
Proof.
  unfold predict_noise, bind, lift. intros Hp.
  destruct (predict_branches cfg gs emb i t latents s) as [[e|preds] s1]; [discriminate|].
  destruct (perform_guidance gs i (ndcfg_tau cfg) preds.1 preds.2); [discriminate|].
  inversion Hp; subst. by exists preds.
Qed.

(** An iteration that completes leaves the network objects as they were. *)
Lemma patches_scoped_step cfg gs gr emb i t latents (s s' : Machine) latents' :
  distinct_names s ->
  denoise_step cfg gs gr emb i t latents s = (inr latents', s') ->
  same_networks s s' /\ distinct_names s'.
Proof.
  intros Hwf Hstep. unfold denoise_step, bind in Hstep.
  destruct (predict_noise cfg gs gr emb i t latents s) as [[e|noise] s1] eqn:Hn; [discriminate|].
  destruct (predict_noise_inr _ _ _ _ _ _ _ _ _ _ Hn) as [preds Hp].
  destruct (predict_branches_inr _ _ _ _ _ _ _ _ _ Hp) as (s_mid & Ha & Hv & Hskip).
  destruct (run_branch_returns _ _ _ _ _ _ _ _ _ _ _ Hwf Ha) as [-> _].
  assert (Hs1 : s1 = s).
  { destruct (Z.lt_ge_cases i (ndcfg_tau cfg)) as [Hlt|Hge].
    - destruct (Hv Hlt) as (v & _ & Hrun).
      by destruct (run_branch_returns _ _ _ _ _ _ _ _ _ _ _ Hwf Hrun) as [-> _].
    - by destruct (Hskip Hge) as [_ ->]. }
  subst s1. pose proof (advance_networks _ _ _ _ _ _ Hstep) as Hsame.
  split; [done|]. by eapply same_networks_distinct.
Qed.

(** C8.  In an iteration that completes, each [backup_forwards] is taken in
    the state the iteration started in (so no other record is outstanding
    when it is created, the first one having been released before the second
    is taken), it concerns a single network object, and the second loop gives
    the starting state back: when the next iteration begins, all three network
    objects are as they were. *)
Theorem patches_do_not_outlive_the_invocation cfg gs gr emb i t latents
    (s s' : Machine) latents' :
  distinct_names s ->
  denoise_step cfg gs gr emb i t latents s = (inr latents', s') ->
  same_networks s s' /\
  distinct_names s' /\
  branch_scoped cfg (dilate_settings cfg) (dilate_tau cfg) i (select_unet cfg i) s /\
  (i < ndcfg_tau cfg ->
     branch_scoped cfg (ndcfg_dilate_settings cfg) (ndcfg_tau cfg) i (select_unet_vanilla cfg i) s).
Proof.
  intros Hwf Hstep. unfold denoise_step, bind in Hstep.
  destruct (predict_noise cfg gs gr emb i t latents s) as [[e|noise] s1] eqn:Hn; [discriminate|].
  destruct (predict_noise_inr _ _ _ _ _ _ _ _ _ _ Hn) as [preds Hp].
  destruct (predict_branches_inr _ _ _ _ _ _ _ _ _ Hp) as (s_mid & Ha & Hv & Hskip).
  destruct (run_branch_returns _ _ _ _ _ _ _ _ _ _ _ Hwf Ha) as [-> _].
  assert (Hs1 : s1 = s).
  { destruct (Z.lt_ge_cases i (ndcfg_tau cfg)) as [Hlt|Hge].
    - destruct (Hv Hlt) as (v & _ & Hrun).
      by destruct (run_branch_returns _ _ _ _ _ _ _ _ _ _ _ Hwf Hrun) as [-> _].
    - by destruct (Hskip Hge) as [_ ->]. }
  subst s1. pose proof (advance_networks _ _ _ _ _ _ Hstep) as Hsame.
  split; [done|]. split; [by eapply same_networks_distinct|]. split.
  - by eapply run_branch_scoped.
  - intros Hlt. destruct (Hv Hlt) as (v & _ & Hrun). by eapply run_branch_scoped.
Qed.

(** The loop as a whole leaves the network objects as it found them. *)
Lemma denoising_loop_networks cfg gs gr emb timesteps :
  forall i latents (s s' : Machine) history,
    distinct_names s ->
    denoising_loop cfg gs gr emb i timesteps latents s = (inr history, s') ->
    same_networks s s'.
Proof.
  induction timesteps as [|t rest IH]; intros i latents s s' history Hwf Hloop.
  - simpl in Hloop. inversion Hloop; subst. by repeat split.
  - simpl in Hloop. unfold bind in Hloop.
    destruct (denoise_step cfg gs gr emb i t latents s) as [[e|latents'] s1] eqn:Hstep;
      [discriminate|].
    destruct (patches_scoped_step cfg gs gr emb i t latents s s1 latents' Hwf Hstep)
      as (Hsame & Hwf1).
    destruct (denoising_loop cfg gs gr emb (i + 1) rest latents' s1) as [[e|later] s2] eqn:Hrest;
      [discriminate|].
    inversion Hloop; subst.
    destruct (IH _ _ _ _ _ Hwf1 Hrest) as (Hu & Hi & Hv).
    destruct Hsame as (Hu' & Hi' & Hv'). unfold same_networks. by rewrite Hu', Hi', Hv'.
Qed.

End Step.

Lemma patches_do_not_outlive_the_invocation_witness :
  same_networks Toy.machine (Toy.machine_at 1) /\
  branch_scoped (Toy.cfg None false) (Some {[ "conv" := Ffinite 4 ]}) 2 0 SelfUnet Toy.machine /\
  branch_scoped (Toy.cfg None false) (Some {[ "conv" := Ffinite 2 ]}) 1 0 SelfUnet Toy.machine.
Proof.
  destruct (patches_do_not_outlive_the_invocation (Ext := Toy.ext) (Toy.cfg None false) (15 # 2) 0 tt 0 5
              [1%Q] Toy.machine (Toy.machine_at 1) [(-47) # 4])
    as (Hsame & _ & Hfirst & Hsecond).
  - split; [|split; intros net Hnet; discriminate Hnet].
    apply (bool_decide_unpack _). vm_compute. exact I.
  - vm_compute. reflexivity.
  - split; [exact Hsame|]. split; [exact Hfirst|]. apply Hsecond. simpl. lia.
Defined.

(** ** Guidance *)

Section Guidance.
Context `{Ext : Externals}.

(** C7.  With [guidance_scale <= 1.0] the latents are not duplicated for the
    network, and the noise estimate handed to the scheduler is the first
    network prediction as the network returned it, whatever
    [guidance_rescale] is (and an exception of a network call is passed on). *)
Theorem no_guidance_keeps_raw_prediction cfg gs gr emb i t latents (s : Machine) :
  (gs <= 1)%Q ->
  latent_model_input gs t latents = scale_model_input latents t /\
  predict_noise cfg gs gr emb i t latents s
  = bind (predict_branches cfg gs emb i t latents) (fun preds => ret preds.1) s /\
  (forall preds s', predict_branches cfg gs emb i t latents s = (inr preds, s') ->
     exists s_mid,
       run_branch cfg (dilate_settings cfg) (dilate_tau cfg) i (select_unet cfg i)
         (scale_model_input latents t) t emb s = (inr preds.1, s_mid)).
Proof.
  intros Hgs. pose proof (guidance_disabled gs Hgs) as Hoff.
  assert (Hin : latent_model_input gs t latents = scale_model_input latents t).
  { unfold latent_model_input. by rewrite Hoff. }
  split; [done|]. split.
  - unfold predict_noise, bind, lift, ret.
    destruct (predict_branches cfg gs emb i t latents s) as [[e|preds] s1]; [done|].
    unfold perform_guidance, guidance_rescaling. by rewrite Hoff.
  - intros preds s' Hp.
    destruct (predict_branches_inr _ _ _ _ _ _ _ _ _ Hp) as (s_mid & Ha & _).
    exists s_mid. by rewrite <- Hin.
Qed.

(** C2, as the code has it.  At a step [i < ndcfg_tau] with guidance enabled
    the second prediction exists and the guided estimate is the unconditional
    half of the second (vanilla) prediction plus [guidance_scale] times the
    difference of the conditional and unconditional halves of the first
    (adapted) prediction. *)
Theorem ndcfg_guidance_combination cfg gs emb i t latents (s s' : Machine) preds :
  i < ndcfg_tau cfg ->
  (1 < gs)%Q ->
  predict_branches cfg gs emb i t latents s = (inr preds, s') ->
  exists v s_mid,
    run_branch cfg (dilate_settings cfg) (dilate_tau cfg) i (select_unet cfg i)
      (latent_model_input gs t latents) t emb s = (inr preds.1, s_mid) /\
    run_branch cfg (ndcfg_dilate_settings cfg) (ndcfg_tau cfg) i (select_unet_vanilla cfg i)
      (latent_model_input gs t latents) t emb s_mid = (inr v, s') /\
    preds.2 = Some v /\
    perform_guidance gs i (ndcfg_tau cfg) preds.1 preds.2
    = inr (torch_add (torch_chunk2 v).1
             (torch_scale gs (torch_sub (torch_chunk2 preds.1).2 (torch_chunk2 preds.1).1)),
           Some (torch_chunk2 preds.1).2).
Proof.
  intros Hi Hgs Hp.
  destruct (predict_branches_inr _ _ _ _ _ _ _ _ _ Hp) as (s_mid & Ha & Hv & _).
  destruct (Hv Hi) as (v & Hsome & Hrun).
  exists v, s_mid. repeat split; try done.
  unfold perform_guidance. rewrite (guidance_enabled gs Hgs), Hsome.
  destruct (torch_chunk2 preds.1) as [uncond text].
  destruct (Z.ltb_spec i (ndcfg_tau cfg)); [|lia].
  by destruct (torch_chunk2 v) as [v_uncond v_text].
Qed.

(** When [ndcfg_tau = 0] no step index is below it: the second invocation and
    its rate computation are not reached. *)
Lemma vanilla_branch_skipped cfg gs emb i t latents (s : Machine) :
  ndcfg_tau cfg <= i ->
  predict_branches cfg gs emb i t latents s
  = bind (run_branch cfg (dilate_settings cfg) (dilate_tau cfg) i (select_unet cfg i)
            (latent_model_input gs t latents) t emb)
         (fun noise_pred => ret (noise_pred, None)) s.
Proof.
  intros Hi. unfold predict_branches.
  by destruct (Z.ltb_spec i (ndcfg_tau cfg)); [lia|].
Qed.

End Guidance.

Lemma no_guidance_keeps_raw_prediction_witness :
  predict_noise (Toy.cfg None false) 1 (1 # 2) tt 0 5 [1%Q] Toy.machine
  = bind (predict_branches (Toy.cfg None false) 1 tt 0 5 [1%Q]) (fun preds => ret preds.1)
      Toy.machine.
Proof.
  refine (proj1 (proj2 (no_guidance_keeps_raw_prediction (Ext := Toy.ext) (Toy.cfg None false) 1 (1 # 2) tt 0 5
                          [1%Q] Toy.machine _))).
  vm_compute. discriminate.
Defined.

Lemma ndcfg_guidance_combination_witness :
  exists v,
    perform_guidance (15 # 2) 0 1 [4%Q; 7%Q] (Some v)
    = inr (torch_add (torch_chunk2 v).1
             (torch_scale (15 # 2) (torch_sub (torch_chunk2 [4%Q; 7%Q]).2
                                              (torch_chunk2 [4%Q; 7%Q]).1)),
           Some (torch_chunk2 [4%Q; 7%Q]).2).
Proof.
  destruct (ndcfg_guidance_combination (Ext := Toy.ext) (Toy.cfg None false) (15 # 2) tt 0 5 [1%Q]
              Toy.machine Toy.machine ([4%Q; 7%Q], Some [3%Q; 5%Q]))
    as (v & s_mid & _ & _ & Hsome & Hguided).
  - simpl. lia.
  - vm_compute. reflexivity.
  - vm_compute. reflexivity.
  - exists v. simpl in Hsome. rewrite Hsome in Hguided. exact Hguided.
Defined.

(** C2 as stated fails: in the toy run the guided estimate at step 0 differs
    from the combination of the two halves of the vanilla prediction. *)
Lemma ndcfg_guidance_not_from_vanilla_alone :
  exists np v s' guided text,
    predict_branches (Toy.cfg None false) (15 # 2) tt 0 5 [1%Q] Toy.machine
    = (inr (np, Some v), s') /\
    perform_guidance (15 # 2) 0 (ndcfg_tau (Toy.cfg None false)) np (Some v)
    = inr (guided, text) /\
    guided <> torch_add (torch_chunk2 v).1
                (torch_scale (15 # 2) (torch_sub (torch_chunk2 v).2 (torch_chunk2 v).1)).
Proof.
  eexists _, _, _, _, _. split; [|split].
  - vm_compute. reflexivity.
  - vm_compute. reflexivity.
  - vm_compute. discriminate.
Qed.

(** ** A progressive schedule with [dilate_tau = 0] *)

Lemma progressive_zero_tau_raises {T} (cfg : Config T) (i : Z) (name : string)
    (base : float64) :
  progressive cfg = true -> layer_dilate cfg 0 i name base = inl ZeroDivisionError.
Proof. intros Hp. unfold layer_dilate. by rewrite Hp. Qed.

(** C3 fails on the first branch.  With [progressive = True],
    [dilate_tau = 0] and one configured layer, the first iteration stops with
    [ZeroDivisionError] in the rate computation of line 203. *)
Theorem progressive_zero_dilate_tau_divides_by_zero :
  (denoise_step Toy.cfg_tau0 (15 # 2) 0 tt 0 5 [1%Q] Toy.machine).1 = inl ZeroDivisionError.
Proof. vm_compute. reflexivity. Qed.

(** ** Halving without an inflation transform *)

(** The integer of line 203 can always be divided by 2 at line 205. *)
Lemma progressive_rate_halves (base : float64) (tau i : Z) (rate : py_num) :
  progressive_rate base tau i = inr rate -> true_div_2 rate = inr (halved rate).
Proof.
  unfold progressive_rate, progressive_dilate.
  destruct (int_true_div (tau - i) tau) as [e|f]; [done|]. simpl.
  destruct (f64_mul base f) as [|neg|q] eqn:Hmul; try done. simpl.
  intros Hr. inversion Hr. apply true_div_2_int. split; [lia|].
  assert (Hq : (q < 2 ^ 1024)%Q).
  { destruct base as [|nb|b], f as [|nf|f']; simpl in Hmul; try done.
    - by destruct (Qeq_bool f' 0).
    - by destruct (Qeq_bool b 0).
    - by destruct (round64_finite_bound _ _ Hmul). }
  assert (Qceiling q <= 2 ^ 1024); [|lia].
  apply ceiling_le_iff. rewrite two_power_Z by lia. lra.
Qed.

Section Halving.
Context `{Ext : Externals}.


End Halving.


(** ** Sampling twice *)

Section Reproducibility.
Context `{Ext : Externals}.

Lemma inflated_copy_names (cfg : Config transform_t) R (net : Network weights_t) :
  module_names (named_modules (inflated_copy cfg R net)) = module_names (named_modules net).
Proof.
  unfold inflated_copy, inflate_kernels, module_names.
  destruct (inflate_settings cfg) as [names|]; [|done]. simpl.
  rewrite <- list_fmap_compose. apply list_fmap_ext. intros k m _. simpl.
  by destruct (bool_decide (m.1 ∈ names)).
Qed.

Lemma prepare_networks_distinct (cfg : Config transform_t) (s : Machine) :
  NoDup (module_names (named_modules (self_unet s))) ->
  distinct_names (prepare_networks cfg s).2 /\
  self_unet (prepare_networks cfg s).2 = self_unet s /\
  rng (prepare_networks cfg s).2 = rng s.
Proof.
  intros Hnd. unfold prepare_networks, distinct_names. simpl. repeat split; [done| |].
  - intros net Hnet. destruct (transform cfg) as [R|]; [|discriminate].
    inversion Hnet; subst. by rewrite inflated_copy_names.
  - intros net Hnet. destruct (transform cfg) as [R|]; [|discriminate].
    destruct (0 <? ndcfg_tau cfg); [|discriminate].
    inversion Hnet; subst. by rewrite inflated_copy_names.
Qed.

(** [forward] reads [self.unet] and the generator; it builds its own copies. *)
Lemma forward_reads_self_unet cfg prompt steps gs gr latents (s s2 : Machine) :
  self_unet s2 = self_unet s -> rng s2 = rng s ->
  forward cfg prompt steps gs gr latents s2 = forward cfg prompt steps gs gr latents s.
Proof.
  intros Hu Hg. unfold forward, bind, prepare_networks. by rewrite Hu, Hg.
Qed.

Lemma forward_keeps_self_unet cfg prompt steps gs gr latents (s s' : Machine) history :
  NoDup (module_names (named_modules (self_unet s))) ->
  forward cfg prompt steps gs gr latents s = (inr history, s') ->
  self_unet s' = self_unet s.
Proof.
  intros Hnd Hf. unfold forward, bind in Hf.
  destruct (prepare_networks_distinct cfg s Hnd) as (Hwf & Hu & _).
  destruct (prepare_networks cfg s) as [[e|[]] s0] eqn:Hprep; [discriminate|].
  simpl in Hwf, Hu.
  destruct (denoising_loop_networks _ _ _ _ _ _ _ _ _ _ Hwf Hf) as (Hsame & _).
  congruence.
Qed.

(** C9.  Provided [set_seed] determines the generator state whatever it was
    before, a sampling run that completes leaves [self.unet] as it found it,
    and any further run with the same seed, prompts and settings on that
    pipeline (whatever the generator state by then) returns the same latents
    after every step and ends in the same state. *)
Theorem sampling_is_reproducible cfg seed n prompts shape steps (s s1 : Machine) history :
  (forall sd g g', set_seed sd g = set_seed sd g') ->
  NoDup (module_names (named_modules (self_unet s))) ->
  sample cfg seed n prompts shape steps s = (inr history, s1) ->
  self_unet s1 = self_unet s /\
  forall s2, self_unet s2 = self_unet s1 ->
    sample cfg seed n prompts shape steps s2 = (inr history, s1).
Proof.
  intros Hseed Hnd Hrun.
  assert (Hkeep : self_unet s1 = self_unet s).
  { unfold sample in Hrun. destruct (torch_randn shape (set_seed (seed + n) (rng s))) as [l g1].
    by apply forward_keeps_self_unet in Hrun. }
  split; [done|]. intros s2 Hs2. rewrite <- Hrun. unfold sample.
  rewrite (Hseed (seed + n) (rng s2) (rng s)).
  destruct (torch_randn shape (set_seed (seed + n) (rng s))) as [l g1].
  apply forward_reads_self_unet; simpl; congruence.
Qed.

End Reproducibility.

Lemma sampling_is_reproducible_witness :
  sample (Toy.cfg (Some tt) true) 23 0 ["a"] 1 3 (Toy.machine_at 7)
  = sample (Toy.cfg (Some tt) true) 23 0 ["a"] 1 3 Toy.machine.
Proof.
  assert (Hok : exists history s1,
            sample (Ext := Toy.ext) (Toy.cfg (Some tt) true) 23 0 ["a"] 1 3 Toy.machine
            = (inr history, s1)) by (eexists _, _; vm_compute; reflexivity).
  destruct Hok as (history & s1 & Hrun).
  destruct (sampling_is_reproducible (Ext := Toy.ext) (Toy.cfg (Some tt) true) 23 0 ["a"] 1 3
              Toy.machine s1 history (fun _ _ _ => eq_refl)
              ltac:(apply (bool_decide_unpack _); vm_compute; exact I) Hrun)
    as [Hkeep Hagain].
  rewrite Hrun. apply Hagain. simpl. symmetry. exact Hkeep.
Defined.


(** ** Text operations *)

#[local] Arguments Ascii.eqb : simpl never.

Lemma rstrip_newline (s : string) : rstrip (s +:+ String newline EmptyString) = rstrip s.
Proof.
  induction s as [|c rest IH]; [done|]. simpl. by rewrite IH.
Qed.

Lemma lstrip_newline (s : string) :
  lstrip (s +:+ String newline EmptyString)
  = match lstrip s with
    | EmptyString => EmptyString
    | String c kept => String c kept +:+ String newline EmptyString
    end.
Proof.
  induction s as [|c rest IH]; [done|]. simpl. by destruct (is_space c).
Qed.

Lemma strip_newline (s : string) : strip (s +:+ String newline EmptyString) = strip s.
Proof.
  unfold strip. rewrite lstrip_newline. destruct (lstrip s) as [|c kept]; [done|].
  apply rstrip_newline.
Qed.

Lemma rstrip_idempotent (s : string) : rstrip (rstrip s) = rstrip s.
Proof.
  induction s as [|c rest IH]; [done|]. simpl.
  destruct (rstrip rest) as [|c' kept] eqn:Hrest.
  - destruct (is_space c) eqn:Hc; [done|]. simpl. by rewrite Hc.
  - change (rstrip (String c (String c' kept))) with
      (match rstrip (String c' kept) with
       | EmptyString => if is_space c then EmptyString else String c EmptyString
       | String a k => String c (String a k)
       end).
    by rewrite IH.
Qed.

Lemma rstrip_head (c : ascii) (rest : string) :
  is_space c = false -> exists kept, rstrip (String c rest) = String c kept.
Proof.
  intros Hc. simpl. destruct (rstrip rest); [rewrite Hc|]; eauto.
Qed.

Lemma lstrip_head (s : string) :
  lstrip s = EmptyString \/ exists c kept, lstrip s = String c kept /\ is_space c = false.
Proof.
  induction s as [|c rest IH]; [by left|]. simpl.
  destruct (is_space c) eqn:Hc; [done|]. right. eauto.
Qed.

Lemma strip_idempotent (s : string) : strip (strip s) = strip s.
Proof.
  unfold strip. destruct (lstrip_head s) as [->|(c & kept & -> & Hc)]; [done|].
  destruct (rstrip_head c kept Hc) as [kept' Hk]. rewrite Hk. simpl. rewrite Hc.
  rewrite <- Hk. apply rstrip_idempotent.
Qed.

Lemma chars_lstrip (s : string) (c : ascii) : c ∈ chars (lstrip s) -> c ∈ chars s.
Proof.
  induction s as [|a rest IH]; [done|]. simpl.
  destruct (is_space a); [|done]. intros Hin. right. by apply IH.
Qed.

Lemma chars_rstrip (s : string) (c : ascii) : c ∈ chars (rstrip s) -> c ∈ chars s.
Proof.
  induction s as [|a rest IH]; [done|]. simpl.
  destruct (rstrip rest) as [|a' kept].
  - destruct (is_space a); [by intros ?%elem_of_nil|].
    simpl. intros [->|?%elem_of_nil]%elem_of_cons; [by left|done].
  - simpl. intros [->|Hin]%elem_of_cons; [by left|]. right. by apply IH.
Qed.

Lemma chars_strip (s : string) (c : ascii) : c ∈ chars (strip s) -> c ∈ chars s.
Proof. intros Hin. by apply chars_lstrip, chars_rstrip. Qed.

Lemma chars_app (s1 s2 : string) : chars (s1 +:+ s2) = chars s1 ++ chars s2.
Proof. induction s1 as [|c rest IH]; [done|]. simpl. by rewrite IH. Qed.

Lemma readlines_line (line rest : string) :
  newline ∉ chars line ->
  readlines (line +:+ String newline rest)
  = (line +:+ String newline EmptyString) :: readlines rest.
Proof.
  induction line as [|c more IH]; intros Hnl.
  - reflexivity.
  - simpl in *. apply not_elem_of_cons in Hnl as [Hc Hmore].
    destruct (Ascii.eqb_spec c newline) as [->|_]; [done|].
    by rewrite IH.
Qed.

(** Every line that [readlines] returns is a stretch without a newline,
    followed by one newline or (at the end of the text) by nothing. *)
Lemma readlines_shape (text : string) :
  Forall (fun line => exists body, (newline ∉ chars body) /\
            (line = body \/ line = body +:+ String newline EmptyString))
    (readlines text).
Proof.
  induction text as [|c rest IH]; [constructor|]. simpl.
  destruct (Ascii.eqb_spec c newline) as [->|Hc].
  - constructor; [|done]. exists EmptyString. split; [apply not_elem_of_nil|by right].
  - destruct (readlines rest) as [|line lines].
    + constructor; [|done]. exists (String c EmptyString). split; [|by left].
      simpl. by intros [?|?%elem_of_nil]%elem_of_cons.
    + apply Forall_cons in IH as [(body & Hbody & Hline) Hlines]. constructor; [|done].
      exists (String c body). split.
      * simpl. by intros [?|?]%elem_of_cons.
      * destruct Hline as [->| ->]; [by left|by right].
Qed.

Lemma readlines_write_lines (lines : list string) :
  Forall (fun line => newline ∉ chars line) lines ->
  readlines (write_lines lines) = (fun line => line +:+ String newline EmptyString) <$> lines.
Proof.
  induction 1 as [|line lines Hline _ IH]; [done|].
  simpl. by rewrite readlines_line, IH.
Qed.

(** A text without carriage returns is delivered as it is. *)
Lemma universal_newlines_plain (file : string) :
  carriage_return ∉ chars file -> universal_newlines file = file.
Proof.
  induction file as [|c rest IH]; [done|]. simpl. intros [Hc Hrest]%not_elem_of_cons.
  destruct (Ascii.eqb_spec c carriage_return) as [->|_]; [done|]. by rewrite IH.
Qed.

Lemma write_lines_plain (lines : list string) :
  Forall (fun line => carriage_return ∉ chars line) lines ->
  carriage_return ∉ chars (write_lines lines).
Proof.
  induction 1 as [|line lines Hline _ IH]; [apply not_elem_of_nil|].
  simpl. rewrite chars_app. simpl. intros [?|Hin]%elem_of_app; [done|].
  apply elem_of_cons in Hin as [?|?]; done.
Qed.

(** ** [read_module_list] *)

(** X1.  Names written one per line, none containing a line ending (line
    feed or carriage return) and none with white space at either end, are
    read back as they were written. *)
Theorem read_module_list_round_trip (names : list string) :
  Forall (fun name => one_line name /\ strip name = name) names ->
  read_module_list (write_lines names) = names.
Proof.
  intros Hnames. unfold read_module_list.
  rewrite universal_newlines_plain
    by (apply write_lines_plain; eapply Forall_impl; [done|by intros ? [[_ ?] _]]).
  rewrite readlines_write_lines by (eapply Forall_impl; [done|by intros ? [[? _] _]]).
  rewrite <- list_fmap_compose. rewrite <- (list_fmap_id names) at 2.
  apply list_fmap_ext. intros k name Hk. simpl. rewrite strip_newline.
  rewrite Forall_lookup in Hnames. by destruct (Hnames k name Hk).
Qed.

Lemma read_module_list_round_trip_witness :
  read_module_list (write_lines ["down_blocks.0.resnets.0.conv1"; "mid_block.resnets.0.conv2"])
  = ["down_blocks.0.resnets.0.conv1"; "mid_block.resnets.0.conv2"].
Proof.
  apply read_module_list_round_trip.
  repeat constructor; vm_compute; try reflexivity;
    intros Hin; repeat (apply elem_of_cons in Hin as [Hin|Hin]; [discriminate Hin|]);
    by apply elem_of_nil in Hin.
Defined.

(** X2.  Whatever the characters of the file, every name that
    [read_module_list] returns is free of newlines and has no white space at
    either end (a line of white space only gives the empty name). *)
Theorem read_module_list_names_stripped (file : string) :
  Forall (fun name => (newline ∉ chars name) /\ strip name = name) (read_module_list file).
Proof.
  unfold read_module_list. apply Forall_fmap.
  eapply Forall_impl; [apply readlines_shape|].
  intros line (body & Hbody & Hline). simpl.
  assert (Hstrip : strip line = strip body).
  { destruct Hline as [->| ->]; [done|apply strip_newline]. }
  rewrite Hstrip. split.
  - intros Hin. by apply Hbody, chars_strip.
  - apply strip_idempotent.
Qed.

(** ** [read_dilate_settings] *)

Lemma split_length (sep : ascii) (s : string) :
  length (split sep s) = S (count_char sep s).
Proof.
  induction s as [|c rest IH]; [done|]. simpl.
  destruct (Ascii.eqb c sep); simpl; [by rewrite IH|].
  destruct (split sep rest); simpl in *; lia.
Qed.

Lemma split_no_separator (sep : ascii) (s : string) :
  sep ∉ chars s -> split sep s = [s].
Proof.
  induction s as [|c rest IH]; [done|]. simpl. intros [Hc Hrest]%not_elem_of_cons.
  destruct (Ascii.eqb_spec c sep) as [->|_]; [done|]. by rewrite IH.
Qed.

Lemma split_once (sep : ascii) (s1 s2 : string) :
  sep ∉ chars s1 -> sep ∉ chars s2 -> split sep (s1 +:+ String sep s2) = [s1; s2].
Proof.
  intros H1 H2. induction s1 as [|c rest IH]; simpl.
  - by rewrite Ascii.eqb_refl, split_no_separator.
  - simpl in H1. apply not_elem_of_cons in H1 as [Hc Hrest].
    destruct (Ascii.eqb_spec c sep) as [->|_]; [done|]. by rewrite IH.
Qed.

Lemma append_newline_assoc (s1 s2 s3 : string) : (s1 +:+ s2) +:+ s3 = s1 +:+ (s2 +:+ s3).
Proof.
  induction s1 as [|c rest IH]; [done|].
  change (String c ((rest +:+ s2) +:+ s3) = String c (rest +:+ (s2 +:+ s3))).
  by rewrite IH.
Qed.

Section DilateSettingsFacts.
Variable float : string -> option float64.

Lemma read_dilate_lines_malformed (raw_lines : list string) (line : string) m :
  line ∈ raw_lines -> count_char ":" line <> 1%nat ->
  read_dilate_lines float raw_lines m = None.
Proof.
  intros Hin Hcount. revert m.
  induction raw_lines as [|raw rest IH]; intros m; [by apply elem_of_nil in Hin|].
  simpl. apply elem_of_cons in Hin as [<-|Hin].
  - pose proof (split_length ":" line) as Hlen.
    destruct (split ":" line) as [|a [|b [|c more]]]; simpl in Hlen; try done.
    exfalso. apply Hcount. lia.
  - destruct (split ":" raw) as [|a [|b [|c more]]]; try done.
    destruct (float b); [|done]. by apply IH.
Qed.

(** X3.  A line of the dilation settings file that does not contain exactly
    one colon (an empty line for one) makes [read_dilate_settings] fail with
    the [ValueError], wherever the line stands in the file. *)
Theorem read_dilate_settings_malformed_line (file line : string) :
  line ∈ readlines (universal_newlines file) ->
  count_char ":" line <> 1%nat ->
  read_dilate_settings float file = None.
Proof. intros Hin Hcount. by eapply read_dilate_lines_malformed. Qed.

Lemma read_dilate_lines_entries (entries : list (string * string * float64)) m :
  Forall (entry_readable float) entries ->
  read_dilate_lines float
    ((fun line => line +:+ String newline EmptyString) <$> (settings_line <$> entries)) m
  = Some (foldl (fun d entry => <[entry.1.1 := entry.2]> d) m entries).
Proof.
  intros Hall. revert m. induction Hall as [|[[name value] rate] rest Hentry _ IH]; intros m;
    [done|].
  destruct Hentry as (((Hn1 & _) & Hn2) & ((Hv1 & _) & Hv2) & Hfloat). simpl in *.
  assert (Hline : settings_line (name, value, rate) +:+ String newline EmptyString
                  = name +:+ String ":" (value +:+ String newline EmptyString)).
  { unfold settings_line. simpl. apply append_newline_assoc. }
  rewrite Hline, split_once; [|done|].
  - rewrite Hfloat. apply IH.
  - rewrite chars_app. simpl. intros [?|Hin]%elem_of_app; [done|].
    apply elem_of_cons in Hin as [?|?%elem_of_nil]; done.
Qed.

Lemma foldl_insert_list_to_map (pairs : list (string * float64)) :
  foldl (fun d p => <[p.1 := p.2]> d) (∅ : gmap string float64) pairs = list_to_map (reverse pairs).
Proof.
  induction pairs as [|[k v] rest IH] using rev_ind; [done|].
  rewrite foldl_app, reverse_app. simpl. by rewrite IH.
Qed.

(** X4.  A settings text made of lines [name:value], with neither colon nor
    line ending (line feed or carriage return) inside a name or a value, is
    read as the dictionary of its
    entries: the key is the text before the colon exactly as written (no
    stripping), [float] sees the value text with the newline of the line, and
    a later line replaces an earlier one with the same key. *)
Theorem read_dilate_settings_round_trip (entries : list (string * string * float64)) :
  Forall (entry_readable float) entries ->
  read_dilate_settings float (write_lines (settings_line <$> entries))
  = Some (list_to_map (reverse ((fun entry => (entry.1.1, entry.2)) <$> entries))).
Proof.
  intros Hall. unfold read_dilate_settings.
  assert (Hlines : Forall (fun line => one_line line) (settings_line <$> entries)).
  { apply Forall_fmap. eapply Forall_impl; [done|].
    intros [[name value] rate] (((Hn & Hn') & _) & ((Hv & Hv') & _) & _). simpl in *.
    unfold settings_line. simpl. split; rewrite chars_app; simpl;
      (intros [?|Hin]%elem_of_app; [done|]); apply elem_of_cons in Hin as [?|?]; done. }
  rewrite universal_newlines_plain
    by (apply write_lines_plain; eapply Forall_impl; [done|by intros ? [_ ?]]).
  rewrite readlines_write_lines by (eapply Forall_impl; [done|by intros ? [? _]]).
  rewrite read_dilate_lines_entries by done. f_equal.
  rewrite <- foldl_insert_list_to_map. by rewrite foldl_fmap.
Qed.

End DilateSettingsFacts.

Lemma read_dilate_settings_malformed_line_witness :
  read_dilate_settings ToyFiles.float (write_lines ["conv:2"; ""; "norm:4.0"]) = None.
Proof.
  apply (read_dilate_settings_malformed_line ToyFiles.float _ (String newline EmptyString)).
  - apply (bool_decide_unpack _). vm_compute. exact I.
  - vm_compute. discriminate.
Defined.

Lemma read_dilate_settings_round_trip_witness :
  read_dilate_settings ToyFiles.float
    (write_lines (settings_line <$> [("conv", "2", Ffinite 2); ("conv ", " 4.0", Ffinite 4);
                                     ("conv", "4.0", Ffinite 4)]))
  = Some (list_to_map [("conv", Ffinite 4); ("conv ", Ffinite 4); ("conv", Ffinite 2)]).
Proof.
  apply (read_dilate_settings_round_trip ToyFiles.float
           [("conv", "2", Ffinite 2); ("conv ", " 4.0", Ffinite 4); ("conv", "4.0", Ffinite 4)]).
  repeat constructor; try (apply (bool_decide_unpack _); vm_compute; exact I).
Defined.


(** ** When the replacing loop raises *)

(** What the rate computation of one layer can raise: the division of line
    203 by a zero [tau], the membership test of line 204 on [None], and, under
    [progressive] only, [math.ceil] on a product that is NaN ([ValueError]) or
    infinite ([OverflowError]), or a quotient of the two ints that is too
    large for a float ([OverflowError]). *)
Lemma layer_dilate_inl {T} (cfg : Config T) (tau i : Z) (name : string) (base : float64) e :
  layer_dilate cfg tau i name base = inl e ->
  (e = ZeroDivisionError /\ progressive cfg = true /\ tau = 0) \/
  (e = TypeError /\ i < inflate_tau cfg /\ inflate_settings cfg = None) \/
  ((e = ValueError \/ e = OverflowError) /\ progressive cfg = true /\ tau <> 0).
Proof.
  unfold layer_dilate.
  assert (Hhalve : forall rate : py_num,
    true_div_2 rate = inr (halved rate) ->
    inflate_halving (inflate_tau cfg) (inflate_settings cfg) i name rate = inl e ->
    e = TypeError /\ i < inflate_tau cfg /\ inflate_settings cfg = None).
  { intros rate Hdiv. unfold inflate_halving.
    destruct (Z.ltb_spec i (inflate_tau cfg)); [|discriminate].
    destruct (inflate_settings cfg) as [l|]; [|intros He; by inversion He].
    destruct (bool_decide (name ∈ l)); [|discriminate]. by rewrite Hdiv. }
  destruct (progressive cfg).
  - destruct (progressive_rate base tau i) as [e'|rate] eqn:Hrate; simpl.
    + intros He. inversion He; subst e'. clear He.
      unfold progressive_rate, progressive_dilate, int_true_div in Hrate.
      destruct (Z.eqb_spec tau 0) as [->|Hne]; simpl in Hrate.
      { inversion Hrate. by left. }
      right. right. split; [|done].
      destruct (round64 (inject_Z (tau - i) / inject_Z tau)) as [|neg|f]; simpl in Hrate.
      * destruct (math_ceil (f64_mul base Fnan)) eqn:Hc; [|discriminate].
        destruct base; simpl in Hc; inversion Hc; inversion Hrate; subst; by left.
      * inversion Hrate. by right.
      * destruct (f64_mul base (Ffinite f)) as [|neg|p]; simpl in Hrate;
          inversion Hrate; [by left|by right].
    + intros He. right. left. eapply Hhalve; [|done]. by eapply progressive_rate_halves.
  - simpl. intros He. right. left. by eapply (Hhalve (PyFloat base)).
Qed.

(** The division by a zero [tau] and the membership test on [None] do not
    depend on the layer: where one layer raises one of them, every layer
    raises. *)
Lemma layer_dilate_raises_everywhere {T} (cfg : Config T) (tau i : Z) name base e name' base' :
  layer_dilate cfg tau i name base = inl e ->
  e <> ValueError -> e <> OverflowError ->
  exists e', layer_dilate cfg tau i name' base' = inl e'.
Proof.
  intros He Hv Ho.
  apply layer_dilate_inl in He as [(_ & Hp & ->)|[(_ & Hi & Hnone)|([->| ->] & _)]];
    [| |done|done].
  - exists ZeroDivisionError. by apply progressive_zero_tau_raises.
  - unfold layer_dilate, inflate_halving. rewrite Hnone.
    destruct (Z.ltb_spec i (inflate_tau cfg)); [|lia].
    destruct (if progressive cfg then progressive_rate base' tau i else inr (PyFloat base'));
      simpl; eauto.
Qed.

(** A first loop that raises anything but the two exceptions of [math.ceil]
    raises at the first module it has to handle, before any [forward] is
    assigned. *)
Lemma patch_modules_inl {T} (cfg : Config T) settings tau i mods b e mods' b' :
  patch_modules cfg settings tau i mods b = (inl e, mods', b') ->
  (e <> ValueError -> e <> OverflowError -> mods' = mods) /\
  ((settings = None /\ e = AttributeError) \/
   exists name base, base_rate settings name = Some base /\
     layer_dilate cfg tau i name base = inl e).
Proof.
  revert mods' b b'. induction mods as [|[name fwd] rest IH]; intros mods' b b' Hp;
    [discriminate|].
  simpl in Hp. destruct settings as [ds|]; [|inversion Hp; subst; split; [done|by left]].
  destruct (ds !! name) as [base|] eqn:Hds.
  - destruct (layer_dilate cfg tau i name base) as [e'|d] eqn:Hd.
    + inversion Hp; subst. split; [done|]. right. exists name, base. done.
    + destruct (patch_modules cfg (Some ds) tau i rest (<[name:=fwd]> b))
        as [[r rest'] b1] eqn:Hrest.
      inversion Hp; subst. destruct (IH _ _ _ Hrest) as [_ Hwhy].
      split; [|done]. intros Hv Ho.
      destruct Hwhy as [[? _]|(name' & base' & _ & He)]; [done|].
      destruct (layer_dilate_raises_everywhere cfg tau i name' base' e name base He Hv Ho)
        as [e' He'].
      rewrite He' in Hd. discriminate.
  - destruct (patch_modules cfg (Some ds) tau i rest b) as [[r rest'] b1] eqn:Hrest.
    inversion Hp; subst. destruct (IH _ _ _ Hrest) as [Hsame Hwhy].
    split; [|done]. intros Hv Ho. by rewrite Hsame.
Qed.

Section PatchFailure.
Context `{Ext : Externals}.


(** X6.  After lines 180-189 the network object that either invocation of a
    step [i >= 0] selects exists: [unet_inflate] whenever a transform is
    given, and [unet_inflate_vanilla] at every step of the ndcfg window
    (it is built when [ndcfg_tau > 0], which is where the window is not
    empty). *)
Theorem selected_network_exists (cfg : Config transform_t) (s : Machine) (i : Z) :
  0 <= i ->
  is_Some (get_net (select_unet cfg i) (prepare_networks cfg s).2) /\
  (i < ndcfg_tau cfg ->
   is_Some (get_net (select_unet_vanilla cfg i) (prepare_networks cfg s).2)).
Proof.
  intros Hi. unfold select_unet, select_unet_vanilla, prepare_networks. simpl.
  destruct (transform cfg) as [R|]; simpl.
  - destruct (i <? inflate_tau cfg); simpl; split; eauto.
    intros Hlt. destruct (Z.ltb_spec 0 (ndcfg_tau cfg)); [eauto|lia].
  - rewrite andb_false_r. simpl. eauto.
Qed.

End PatchFailure.


(** A rate that is not a number: the loop raises at ["norm"], after the
    [forward] of ["conv"] has been replaced. *)
Lemma nan_rate_leaves_earlier_forward_replaced :
  patch_modules (Toy.cfg None true)
    (Some (<[ "norm" := Fnan ]> {[ "conv" := Ffinite 4 ]})) 2 1
    (named_modules Toy.base_unet) ∅
  = (inl ValueError,
     [("conv", ReDilateConvProcessor "conv" (PyInt 2) "bilinear" true); ("norm", BoundForward)],
     <[ "norm" := BoundForward ]> {[ "conv" := BoundForward ]}).
Proof. vm_compute. reflexivity. Qed.

Lemma selected_network_exists_witness :
  is_Some (get_net (select_unet_vanilla (Toy.cfg (Some tt) false) 0)
             (prepare_networks (Toy.cfg (Some tt) false) Toy.machine).2).
Proof.
  refine (proj2 (selected_network_exists (Ext := Toy.ext) (Toy.cfg (Some tt) false)
                   Toy.machine 0 _) _); simpl; lia.
Defined.

(** X7.  After a replacing loop that ran to its end on a network whose module
    names are distinct, [backup_forwards] holds exactly the modules of the
    network whose names are keys of the settings, each with the [forward] it
    had before the loop. *)
Theorem backup_forwards_contents {T} (cfg : Config T) settings tau i
    (mods mods' : list (string * forward_fn)) (b : gmap string forward_fn) :
  NoDup (module_names mods) ->
  patch_modules cfg settings tau i mods ∅ = (inr tt, mods', b) ->
  forall name fwd,
    b !! name = Some fwd <-> (name, fwd) ∈ mods /\ is_Some (base_rate settings name).
Proof.
  intros Hnd Hp name fwd. destruct (patch_modules_inr _ _ _ _ _ _ _ _ Hp) as [_ ->].
  split.
  - intros Hb. destruct (base_rate settings name) as [base|] eqn:Hbase.
    2:{ rewrite recorded_unconfigured, lookup_empty in Hb by done. discriminate. }
    destruct (decide (name ∈ module_names mods)) as [Hin|Hnin].
    2:{ rewrite recorded_absent, lookup_empty in Hb by done. discriminate. }
    unfold module_names in Hin. apply list_elem_of_fmap in Hin as ([n f] & -> & Hin).
    simpl in *. erewrite recorded_original in Hb by done.
    inversion Hb; subst. split; [done|eauto].
  - intros [Hin [base Hbase]]. by eapply recorded_original.
Qed.

Lemma backup_forwards_contents_witness :
  ({[ "conv" := BoundForward ]} : gmap string forward_fn) !! "conv" = Some BoundForward <->
  ("conv", BoundForward) ∈ named_modules Toy.base_unet /\
  is_Some (base_rate (Some {[ "conv" := Ffinite 4 ]}) "conv").
Proof.
  refine (backup_forwards_contents (Toy.cfg None false) (Some {[ "conv" := Ffinite 4 ]}) 2 0
           (named_modules Toy.base_unet)
           [("conv", ReDilateConvProcessor "conv" (PyFloat (Ffinite 2)) "bilinear" true);
            ("norm", BoundForward)] _ _ _ "conv" BoundForward).
  - apply (bool_decide_unpack _). vm_compute. exact I.
  - vm_compute. reflexivity.
Defined.

(** ** The arguments that [main] builds *)

Section MainConfig.
Variable float : string -> option float64.

(** X8.  With the closure arguments as [main] builds them (an empty
    dictionary or list where the configuration has no file) none of the
    settings is [None], so a replacing loop, on either branch, raises under
    [progressive] only: the [ZeroDivisionError] of a zero [tau], or, with a
    [tau] other than zero, the [ValueError] or [OverflowError] of line 203 at
    a layer whose rate is not a finite float or at a step outside
    [0 <= i <= tau]. *)
Theorem main_config_patch_errors {T} ndcfg dilate inflate prog
    (dilate_file ndcfg_file inflate_file : option string) (tr : option T) (cfg : Config T) :
  main_config float ndcfg dilate inflate prog dilate_file ndcfg_file inflate_file tr = Some cfg ->
  forall settings tau,
    (settings = dilate_settings cfg /\ tau = dilate) \/
    (settings = ndcfg_dilate_settings cfg /\ tau = ndcfg) ->
    forall i mods b e,
      (patch_modules cfg settings tau i mods b).1.1 = inl e ->
      prog = true /\
      ((e = ZeroDivisionError /\ tau = 0) \/
       ((e = ValueError \/ e = OverflowError) /\ tau <> 0 /\
        exists name base, base_rate settings name = Some base /\
          ~ (finite_float base /\ 0 < tau /\ 0 <= i <= tau))).
Proof.
  unfold main_config. intros Hcfg settings tau Hbranch i mods b e Hraise.
  destruct (match dilate_file with Some text => read_dilate_settings float text | None => Some ∅ end)
    as [ds|]; [|discriminate].
  destruct (match ndcfg_file with Some text => read_dilate_settings float text | None => Some ∅ end)
    as [nds|]; [|discriminate].
  simpl in Hcfg. inversion Hcfg; subst cfg; clear Hcfg. simpl in *.
  destruct (patch_modules _ settings tau i mods b) as [[r mods'] b'] eqn:Hp. simpl in Hraise.
  subst r. destruct (patch_modules_inl _ _ _ _ _ _ _ _ _ Hp) as [_ [[Hnone _]|Hlayer]].
  - destruct Hbranch as [[-> _]|[-> _]]; discriminate.
  - destruct Hlayer as (name & base & Hbase & Hd).
    pose proof Hd as Hwhy.
    apply layer_dilate_inl in Hwhy as [(-> & Hprog & ->)|[(_ & _ & Hinf)|(He & Hprog & Hne)]].
    + split; [done|]. by left.
    + discriminate.
    + split; [done|]. right. split; [done|]. split; [done|].
      exists name, base. split; [done|]. intros (Hfin & Htau & Hi).
      match type of Hd with layer_dilate ?c _ _ _ _ = _ =>
        destruct (layer_dilate_in_window c
                    match inflate_file with Some file => read_module_list file | None => [] end
                    tau i name base) as (rate & _ & Hok)
      end; [done|done|].
      rewrite Hok in Hd. discriminate.
Qed.

End MainConfig.

Lemma main_config_patch_errors_witness :
  (patch_modules
     (mkConfig 0 0 0 (Some {[ "conv" := Ffinite 2 ]}) (Some []) (Some ∅) (None : option unit) true)
     (Some {[ "conv" := Ffinite 2 ]}) 0 5 (named_modules Toy.base_unet) ∅).1.1
  = inl ZeroDivisionError.
Proof.
  set (cfg := mkConfig 0 0 0 _ _ _ _ true).
  assert (Hcfg : main_config ToyFiles.float 0 0 0 true (Some (write_lines ["conv:2"]))
                   None None None = Some cfg) by (vm_compute; reflexivity).
  destruct (patch_modules cfg (Some {[ "conv" := Ffinite 2 ]}) 0 5
              (named_modules Toy.base_unet) ∅).1.1
    as [e|[]] eqn:Hp.
  - destruct (main_config_patch_errors ToyFiles.float 0 0 0 true _ None None None cfg Hcfg
                (Some {[ "conv" := Ffinite 2 ]}) 0 ltac:(left; split; reflexivity) 5
                (named_modules Toy.base_unet) ∅ e Hp) as (_ & [(-> & _)|(_ & Hne & _)]).
    + reflexivity.
    + exfalso. by apply Hne.
  - vm_compute in Hp. discriminate Hp.
Defined.

(** ** The prompt batches *)





(** X10.  A negative batch size raises nothing: the number of batches is not
    positive, the loop of line 387 has no iteration and no prompt is sampled.
    A batch size of zero raises [ZeroDivisionError]. *)
Theorem prompt_batches_nonpositive_size {A} (validation_prompt : list A)
    (inference_batch_size : Z) :
  inference_batch_size <= 0 ->
  prompt_batches validation_prompt inference_batch_size
  = if inference_batch_size =? 0 then inl ZeroDivisionError else inr [].
Proof.
  intros Hbs. unfold prompt_batches, num_batches.
  destruct (Z.eqb_spec inference_batch_size 0) as [->|Hne]; [done|]. simpl.
  assert (Hc : Qceiling (inject_Z (Z.of_nat (length validation_prompt))
                         / inject_Z inference_batch_size) <= 0).
  { apply ceiling_le_iff. destruct inference_batch_size as [|p|p]; [done|lia|].
    unfold Qle, Qdiv, Qmult, Qinv. simpl. lia. }
  by rewrite Z2Nat.nonpos.
Qed.

Lemma prompt_batches_nonpositive_size_witness :
  prompt_batches ["a"; "b"; "c"] (-2) = inr [].
Proof. apply (prompt_batches_nonpositive_size ["a"; "b"; "c"] (-2)). lia. Defined.

(** ** The whole of [forward] *)

Section Forward.
Context `{Ext : Externals}.



Lemma patch_modules_no_settings {T} (cfg : Config T) tau i mods b :
  patch_modules cfg (Some ∅) tau i mods b = (inr tt, mods, b).
Proof.
  induction mods as [|[name fwd] rest IH]; [done|].
  simpl. by rewrite lookup_empty, IH.
Qed.

Lemma restore_modules_empty mods : restore_modules ∅ mods = mods.
Proof.
  unfold restore_modules. rewrite <- (list_fmap_id mods) at 2.
  apply list_fmap_ext. intros k m _. by rewrite lookup_empty.
Qed.

Lemma run_branch_no_settings cfg tau i x t emb (s : Machine) :
  run_branch cfg (Some ∅) tau i SelfUnet x t emb s = (unet_call (self_unet s) x t emb, s).
Proof.
  rewrite (run_branch_unfold _ _ _ _ _ _ _ _ _ (self_unet s)) by done.
  rewrite patch_modules_no_settings. cbv beta iota zeta.
  rewrite restore_modules_empty, !with_modules_same.
  rewrite (set_net_same SelfUnet (self_unet s) s eq_refl).
  by destruct (unet_call (self_unet s) x t emb).
Qed.

(** X12.  With both settings dictionaries empty and no transform (what
    [main] passes when the configuration names no file) no [forward] is ever
    replaced, not even during the call: every step calls [self.unet] as it is
    and hands the scheduler the plain classifier-free guidance of that
    prediction, inside the ndcfg window too (where the network is called a
    second time with the same result). *)
Theorem no_settings_is_plain_sampling cfg gs gr emb i t latents (s : Machine) :
  dilate_settings cfg = Some ∅ ->
  ndcfg_dilate_settings cfg = Some ∅ ->
  transform cfg = None ->
  predict_noise cfg gs gr emb i t latents s
  = (match unet_call (self_unet s) (latent_model_input gs t latents) t emb with
     | inl e => inl e
     | inr noise_pred => inr (plain_guidance gs gr noise_pred)
     end, s).
Proof.
  intros Hds Hnds Htr.
  unfold predict_noise, predict_branches, bind, lift, ret, select_unet, select_unet_vanilla.
  rewrite Hds, Hnds, Htr, andb_false_r, run_branch_no_settings.
  destruct (unet_call (self_unet s) (latent_model_input gs t latents) t emb) as [e|n] eqn:Hcall;
    [done|].
  unfold perform_guidance, guidance_rescaling, plain_guidance.
  destruct (Z.ltb_spec i (ndcfg_tau cfg)).
  - rewrite run_branch_no_settings, Hcall. simpl.
    destruct (do_classifier_free_guidance gs); [|done].
    destruct (torch_chunk2 n) as [uncond text]. simpl. by destruct (Qle_bool gr 0).
  - simpl. destruct (do_classifier_free_guidance gs); [|done].
    destruct (torch_chunk2 n) as [uncond text]. simpl. by destruct (Qle_bool gr 0).
Qed.

End Forward.


Lemma no_settings_is_plain_sampling_witness :
  predict_noise (mkConfig 1 2 1 (Some ∅) (Some []) (Some ∅) None true) (15 # 2) 0 tt 0 5 [1%Q]
    Toy.machine
  = (inr (plain_guidance (15 # 2) 0 [2%Q; 3%Q]), Toy.machine).
Proof.
  exact (no_settings_is_plain_sampling (Ext := Toy.ext)
           (mkConfig 1 2 1 (Some ∅) (Some []) (Some ∅) None true) (15 # 2) 0 tt 0 5 [1%Q]
           Toy.machine eq_refl eq_refl eq_refl).
Defined.

(** ** [parse_args] *)

(** X13.  The parser declares no [local_rank] argument, so when the
    environment variable [LOCAL_RANK] holds an integer other than -1 the
    comparison of line 78 reads a missing attribute and [parse_args] raises
    [AttributeError]; without the variable (or with -1) the namespace is
    returned as parsed. *)
Theorem parse_args_local_rank (args : gmap string arg_value) (LOCAL_RANK : option Z) :
  dom args = list_to_set declared_arguments ->
  parse_args args LOCAL_RANK
  = if bool_decide (default (-1) LOCAL_RANK = -1) then inr args else inl AttributeError.
Proof.
  intros Hdom. unfold parse_args.
  destruct (Z.eqb_spec (default (-1) LOCAL_RANK) (-1)) as [Heq|Hne]; simpl.
  - by rewrite bool_decide_eq_true_2.
  - rewrite bool_decide_eq_false_2 by done. unfold getattr.
    assert (Hmiss : args !! "local_rank" = None).
    { apply not_elem_of_dom. rewrite Hdom. by apply (bool_decide_unpack _). }
    by rewrite Hmiss.
Qed.

Lemma parse_args_local_rank_witness :
  parse_args (gset_to_gmap ArgNone (list_to_set declared_arguments)) (Some 0)
  = inl AttributeError.
Proof.
  apply (parse_args_local_rank (gset_to_gmap ArgNone (list_to_set declared_arguments)) (Some 0)).
  apply dom_gset_to_gmap.
Defined.


(** ** The range of the progressive rate *)

Lemma nonpositive_product_rounds (x : Q) :
  (x <= 0)%Q ->
  round64 x = Finf true \/ exists p, round64 x = Ffinite p /\ (p <= 0)%Q.
Proof.
  intros Hx. apply round64_mono in Hx. change (round64 0) with (Ffinite 0) in Hx.
  destruct (round64 x) as [|[]|p]; simpl in Hx; try done; [by left|right; eauto].
Qed.

Lemma nonpositive_ceiling (p : Q) : (p <= 0)%Q -> Z.max (Qceiling p) 2 = 2.
Proof.
  intros Hp. assert (Qceiling p <= 0); [|lia]. by apply ceiling_le_iff.
Qed.

(** X14.  Under a progressive schedule with [tau > 0] and a finite base rate
    that is not negative, the rate of every step [0 <= i <= tau] lies between
    2 and [max(ceil(base_rate), 2)] (so a base rate below 2 is raised to 2).
    From step [tau] on, where the processor is inactive, line 203 gives 2 or
    raises [OverflowError]; it gives 2 whenever [i <= 2 ^ 52 * tau] and the
    base rate is at most [2 ^ 970]. *)
Theorem progressive_dilate_range (b : Q) (tau i : Z) :
  round64 b = Ffinite b -> 0 < tau -> 0 <= i -> (0 <= b)%Q ->
  (i <= tau -> exists r, progressive_dilate (Ffinite b) tau i = inr r /\
                         2 <= r <= Z.max (Qceiling b) 2) /\
  (tau <= i -> progressive_dilate (Ffinite b) tau i = inr 2 \/
               progressive_dilate (Ffinite b) tau i = inl OverflowError) /\
  (tau <= i -> i <= 2 ^ 52 * tau -> (b <= 2 ^ 970)%Q ->
   progressive_dilate (Ffinite b) tau i = inr 2).
Proof.
  intros Hb Htau Hi Hpos. pose proof (tau_positive tau Htau) as Hq.
  split; [|split].
  - intros Hle.
    destruct (progressive_dilate_in_window b tau i Hb Htau ltac:(lia))
      as (f & p & _ & _ & _ & _ & Hrange & _ & ->).
    destruct (Hrange Hpos) as [_ Hp]. eexists. split; [done|].
    split; [lia|]. apply Z.max_le_compat_r. by apply Qceiling_resp_le.
  - intros Hge.
    assert (Hfrac : (inject_Z (tau - i) / inject_Z tau <= 0)%Q).
    { destruct (fraction_bounds tau i (tau - i) 0 Htau) as [_ Hhi]; [nia|done]. }
    unfold progressive_dilate, int_true_div.
    destruct (Z.eqb_spec tau 0) as [?|_]; [lia|].
    destruct (nonpositive_product_rounds _ Hfrac) as [->|(f & -> & Hf)]; [by right|].
    simpl. destruct (nonpositive_product_rounds (b * f)) as [->|(p & -> & Hp)];
      [nra|by right|].
    left. simpl. by rewrite nonpositive_ceiling.
  - intros Hge Hi52 Hb970.
    destruct (fraction_bounds tau i (- 2 ^ 52) 0 Htau) as [Hlo Hhi]; [lia|].
    apply round64_mono in Hlo, Hhi.
    assert (Hr52 : round64 (inject_Z (- 2 ^ 52)) = Ffinite (inject_Z (- 2 ^ 52)))
      by (vm_compute; reflexivity).
    rewrite Hr52 in Hlo. change (round64 (inject_Z 0)) with (Ffinite 0) in Hhi.
    destruct (f64_between _ _ _ Hlo Hhi) as (f & Hf & Hf52 & Hf0).
    assert (Hlow : (inject_Z (- 2 ^ 1022) <= b * f)%Q).
    { rewrite <- two_power_Z in Hb970 by lia.
      replace (- 2 ^ 1022) with (2 ^ 970 * - 2 ^ 52) by (vm_compute; reflexivity).
      rewrite inject_Z_mult.
      set (A := inject_Z (2 ^ 970)) in *. set (B := inject_Z (- 2 ^ 52)) in *. nra. }
    assert (Hhigh : (b * f <= 0)%Q) by nra.
    apply round64_mono in Hlow, Hhigh.
    assert (Hr1022 : round64 (inject_Z (- 2 ^ 1022)) = Ffinite (inject_Z (- 2 ^ 1022)))
      by (vm_compute; reflexivity).
    rewrite Hr1022 in Hlow. change (round64 0) with (Ffinite 0) in Hhigh.
    destruct (f64_between _ _ _ Hlow Hhigh) as (p & Hp & _ & Hp0).
    unfold progressive_dilate, int_true_div.
    destruct (Z.eqb_spec tau 0) as [?|_]; [lia|].
    rewrite Hf. simpl. rewrite Hp. simpl. by rewrite nonpositive_ceiling.
Qed.

Lemma progressive_dilate_range_witness :
  exists r, progressive_dilate (Ffinite (3 # 2)) 10 0 = inr r /\
            2 <= r <= Z.max (Qceiling (3 # 2)) 2.
Proof.
  refine (proj1 (progressive_dilate_range (3 # 2) 10 0 _ _ _ _) _); try lia.
  - vm_compute. reflexivity.
  - vm_compute. discriminate.
Defined.

(** ** A progressive schedule whose [dilate_tau] is zero *)

Lemma patch_modules_zero_tau {T} (cfg : Config T) ds i mods b name fwd :
  progressive cfg = true ->
  (name, fwd) ∈ mods -> is_Some (ds !! name) ->
  exists b', patch_modules cfg (Some ds) 0 i mods b = (inl ZeroDivisionError, mods, b').
Proof.
  intros Hp Hin Hcfg. revert b.
  induction mods as [|[n f] rest IH]; intros b; [by apply elem_of_nil in Hin|].
  simpl. destruct (ds !! n) as [base|] eqn:Hn.
  - rewrite progressive_zero_tau_raises by done. eauto.
  - apply elem_of_cons in Hin as [Heq|Hin].
    + inversion Heq; subst. rewrite Hn in Hcfg. by destruct Hcfg.
    + destruct (IH Hin b) as [b' ->]. eauto.
Qed.

Section ZeroTau.
Context `{Ext : Externals}.

(** X15.  With [progressive = True] and [dilate_tau = 0], a step whose
    selected network has at least one module named in the dilation settings
    raises [ZeroDivisionError] before the network is called, at every step
    index, and leaves the state as it was: no image is ever sampled with such
    a configuration. *)
Theorem progressive_zero_tau_never_samples cfg ds gs gr emb i t latents (s : Machine)
    net name fwd :
  progressive cfg = true ->
  dilate_tau cfg = 0 ->
  dilate_settings cfg = Some ds ->
  get_net (select_unet cfg i) s = Some net ->
  (name, fwd) ∈ named_modules net ->
  is_Some (ds !! name) ->
  denoise_step cfg gs gr emb i t latents s = (inl ZeroDivisionError, s).
Proof.
  intros Hp Htau Hds Hg Hin Hcfg.
  unfold denoise_step, predict_noise, predict_branches, bind.
  rewrite (run_branch_unfold _ _ _ _ _ _ _ _ _ _ Hg), Hds, Htau.
  destruct (patch_modules_zero_tau cfg ds i (named_modules net) ∅ name fwd Hp Hin Hcfg)
    as [b' ->].
  cbv beta iota zeta. rewrite with_modules_same. by rewrite (set_net_same _ _ _ Hg).
Qed.

End ZeroTau.

Lemma progressive_zero_tau_never_samples_witness :
  denoise_step Toy.cfg_tau0 (15 # 2) 0 tt 7 5 [1%Q] Toy.machine
  = (inl ZeroDivisionError, Toy.machine).
Proof.
  apply (progressive_zero_tau_never_samples (Ext := Toy.ext) Toy.cfg_tau0 {[ "conv" := Ffinite 4 ]}
           (15 # 2) 0 tt 7 5 [1%Q] Toy.machine Toy.base_unet "conv" BoundForward);
    try reflexivity.
  - simpl. left.
  - vm_compute. eauto.
Defined.
